(** * Triangula: latency-based geolocation (shallow embedding of [main.go])

    The development follows the Go program:

    - [Duration]: [time.Duration], a signed 64-bit nanosecond count;
    - the data model: [Server], [Result], [Location];
    - the geometry kernel and the solvers: [rttToDistance],
      [geoToCartesian], [cartesianToGeo], [trilaterate],
      [multilateralTriangulation], [displayTriangulation];
    - [sort_Slice]: the contract of [sort.Slice];
    - [Orchestrator]: the fan-out of [main], one goroutine per server,
      as a transition system over the state guarded by the mutex;
    - [Statistics]: [displayStatistics].

    Numbers.  Go's [int], [int64] and [time.Duration] are integers [Z];
    where the program can wrap around, the wrap is written out
    ([Duration.wrap]).  Go's [float64] is read as an exact real number
    [R]: rounding is not part of this model, so statements about the
    solvers are statements about the arithmetic the program writes
    down.  A division is a real division; no statement below depends
    on the value of a division by zero (where Go yields NaN or an
    infinity).  What rounding changes is shown on the multilateration
    loop in [Binary64].  A Go panic (index out of range) is [None]. *)

From Stdlib Require Import ZArith List Reals Lra Lia Permutation Sorted String.
From Stdlib Require PrimFloat Uint63.
From stdpp Require Import base option list gmap strings sorting.

Local Open Scope Z_scope.

(** ** [time.Duration] *)

Module Duration.

(** Two's-complement reduction into the [int64] range. *)
Definition wrap (z : Z) : Z := (z + 2 ^ 63) mod 2 ^ 64 - 2 ^ 63.

Definition in_range (z : Z) : Prop := - 2 ^ 63 <= z < 2 ^ 63.

Definition add (a b : Z) : Z := wrap (a + b).
Definition sub (a b : Z) : Z := wrap (a - b).
Definition neg (a : Z) : Z := wrap (- a).

Definition Nanosecond : Z := 1.
Definition Millisecond : Z := 1000000.
Definition Second : Z := 1000000000.

(** [func (d Duration) Milliseconds() int64 { return int64(d) / 1e6 }];
    Go's integer division truncates toward zero. *)
Definition Milliseconds (d : Z) : Z := Z.quot d 1000000.

(** [func (d Duration) Seconds() float64]:
    [sec := d / Second; nsec := d % Second;
     return float64(sec) + float64(nsec)/1e9]. *)
Definition Seconds (d : Z) : R :=
  (IZR (Z.quot d Second) + IZR (Z.rem d Second) / 1000000000)%R.

End Duration.

(** ** Data model *)

Record Server := mkServer {
  Name : string;
  IP : string;
  Country : string;
  City : string;
  Lat : R;
  Lon : R;
  AvgRTT : Z
}.

(** [Result.Server] is spelled [Srv]: a field cannot share the name of
    the record type [Server]. *)
Record Result := mkResult {
  Srv : Server;
  Delta : Z;
  Distance : R
}.

(** [Location.Lat], [Location.Lon]. *)
Record Location := mkLocation {
  LocLat : R;
  LocLon : R
}.

Definition speedOfLight : R := 299792.458%R.
Definition fiberSpeed : R := (speedOfLight * 0.67)%R.
Definition earthRadius : R := 6371.0%R.

(** [server.AvgRTT = avg] on the goroutine's private copy. *)
Definition set_AvgRTT (s : Server) (avg : Z) : Server :=
  mkServer (Name s) (IP s) (Country s) (City s) (Lat s) (Lon s) avg.

(** ** Geometry kernel and distance model *)

Section Geometry.
Local Open Scope R_scope.

(** [math.Atan2(y, x)], after the Go library's definition: the
    special cases for a zero argument, then [Atan(y/x)] moved to the
    right quadrant.  The reals have no signed zero, infinities or
    NaN, so those cases are absent. *)
Definition Atan2 (y x : R) : R :=
  if Req_dec_T y 0 then
    (if Rle_dec 0 x then 0 else PI)
  else if Req_dec_T x 0 then
    (if Rlt_dec 0 y then PI / 2 else - (PI / 2))
  else
    let q := atan (y / x) in
    if Rlt_dec x 0 then
      (if Rle_dec q 0 then q + PI else q - PI)
    else q.

Definition rttToDistance (rtt : Z) : R :=
  let seconds := Duration.Seconds rtt in
  (seconds * fiberSpeed) / 2.

Definition geoToCartesian (lat lon : R) : R * R * R :=
  let latRad := lat * PI / 180 in
  let lonRad := lon * PI / 180 in
  let x := earthRadius * cos latRad * cos lonRad in
  let y := earthRadius * cos latRad * sin lonRad in
  let z := earthRadius * sin latRad in
  (x, y, z).

Definition cartesianToGeo (x y z : R) : R * R :=
  let lon := Atan2 y x * 180 / PI in
  let hyp := sqrt (x * x + y * y) in
  let lat := Atan2 z hyp * 180 / PI in
  (lat, lon).

(** The weight line of [trilaterate]: [w := 1.0 / (d + 1.0)]. *)
Definition trilaterate_weight (d : R) : R := 1.0 / (d + 1.0).

Definition trilaterate (s1 s2 s3 : Server) (d1 d2 d3 : R) : Location :=
  let '(x1, y1, z1) := geoToCartesian (Lat s1) (Lon s1) in
  let '(x2, y2, z2) := geoToCartesian (Lat s2) (Lon s2) in
  let '(x3, y3, z3) := geoToCartesian (Lat s3) (Lon s3) in
  let w1 := trilaterate_weight d1 in
  let w2 := trilaterate_weight d2 in
  let w3 := trilaterate_weight d3 in
  let totalWeight := w1 + w2 + w3 in
  let xEst := (x1 * w1 + x2 * w2 + x3 * w3) / totalWeight in
  let yEst := (y1 * w1 + y2 * w2 + y3 * w3) / totalWeight in
  let zEst := (z1 * w1 + z2 * w2 + z3 * w3) / totalWeight in
  let norm := sqrt (xEst * xEst + yEst * yEst + zEst * zEst) in
  let xEst' := xEst / norm * earthRadius in
  let yEst' := yEst / norm * earthRadius in
  let zEst' := zEst / norm * earthRadius in
  let '(lat, lon) := cartesianToGeo xEst' yEst' zEst' in
  mkLocation lat lon.

(** The weight line of [multilateralTriangulation]:
    [weight := 1.0 / (float64(results[i].Delta.Milliseconds()) + 1.0)]. *)
Definition multilateral_weight (delta : Z) : R :=
  1.0 / (IZR (Duration.Milliseconds delta) + 1.0).

(** The accumulators [totalLat], [totalLon], [totalWeight]. *)
Record Totals := mkTotals {
  totalLat : R;
  totalLon : R;
  totalWeight : R
}.

(** One iteration of the loop body on [results[i]]. *)
Definition multilateral_body (acc : Totals) (r : Result) : Totals :=
  let weight := multilateral_weight (Delta r) in
  mkTotals (totalLat acc + Lat (Srv r) * weight)
           (totalLon acc + Lon (Srv r) * weight)
           (totalWeight acc + weight).

(** [for i := 0; i < numServers; i++ { ... results[i] ... }]:
    [n] iterations remain, the next index is [i]; an index outside
    the slice panics. *)
Fixpoint multilateral_loop (results : list Result) (n i : nat)
    (acc : Totals) : option Totals :=
  match n with
  | O => Some acc
  | S n' =>
      match results !! i with
      | None => None
      | Some r => multilateral_loop results n' (S i) (multilateral_body acc r)
      end
  end.

(** The accumulators when the loop is left: the clamp of
    [numServers], then the loop from [i = 0] on zeroed totals. *)
Definition multilateral_totals (results : list Result)
    (numServers : Z) : option Totals :=
  let numServers :=
    if (numServers >? Z.of_nat (length results))%Z
    then Z.of_nat (length results) else numServers in
  multilateral_loop results (Z.to_nat numServers) 0 (mkTotals 0 0 0).

Definition multilateralTriangulation (results : list Result)
    (numServers : Z) : option Location :=
  if (Z.of_nat (length results) <? 3)%Z then
    Some (mkLocation 0 0)
  else
    match multilateral_totals results numServers with
    | None => None
    | Some t =>
        Some (mkLocation (totalLat t / totalWeight t)
                         (totalLon t / totalWeight t))
    end.

End Geometry.

(** ** [displayTriangulation]

    Only what the function computes is kept; the [fmt.Print] calls
    are dropped.  The early [return] of the guard is [NotEnoughServers]
    (the line "Erreur: Pas assez de serveurs pour la triangulation"). *)

Inductive TriangulationReport :=
| NotEnoughServers
| Triangulated (loc1 loc2 : Location) (numServers : Z).

Definition displayTriangulation (results : list Result)
    : option TriangulationReport :=
  if Z.of_nat (length results) <? 3 then
    Some NotEnoughServers
  else
    r0 ← results !! 0%nat;
    r1 ← results !! 1%nat;
    r2 ← results !! 2%nat;
    let loc1 :=
      trilaterate (Srv r0) (Srv r1) (Srv r2)
                  (Distance r0) (Distance r1) (Distance r2) in
    let numServers :=
      if Z.of_nat (length results) <? 10
      then Z.of_nat (length results) else 10 in
    loc2 ← multilateralTriangulation results numServers;
    Some (Triangulated loc1 loc2 numServers).

(** The Location each method hands to the report, if any. *)
Definition trilateration_path (results : list Result) : option Location :=
  match displayTriangulation results with
  | Some (Triangulated loc1 _ _) => Some loc1
  | _ => None
  end.

Definition multilateration_path (results : list Result) (numServers : Z)
    : option Location :=
  multilateralTriangulation results numServers.

(** ** [sort.Slice]

    The program sorts with [sort.Slice(x, less)].  Its contract: the
    slice is rearranged in place so that no element is [less] than one
    before it.  The library documents that the sort is not guaranteed
    to be stable, and which rearrangement comes out depends on the Go
    release; the model is therefore the relation between the slice
    before and after the call. *)

Section Sorting.
Context {A : Type} (less : A -> A -> bool).

Definition sorted_by (ys : list A) : Prop :=
  StronglySorted (fun a b => less b a = false) ys.

Definition sort_Slice (xs ys : list A) : Prop :=
  xs ≡ₚ ys /\ sorted_by ys.

(** Insertion sort on the reversed prefix, the way the library's
    [insertionSort] moves [data[i]] left while it is [less] than its
    predecessor.  It shows that the contract can be met. *)
Fixpoint insert_left (x : A) (rev_prefix : list A) : list A :=
  match rev_prefix with
  | [] => [x]
  | p :: rest =>
      if less x p then p :: insert_left x rest else x :: p :: rest
  end.

Definition insertionSort (xs : list A) : list A :=
  rev (fold_left (fun acc x => insert_left x acc) xs []).

(** One implementation the program has run on.  The README asks for
    Go 1.16 or later; from Go 1.16 to Go 1.18 [sort.Slice] calls the
    library's [quickSort_func], written out here, in place on the
    slice, for the slices short enough to skip its partitioning
    loop. *)

(** [data.Less(i, j)] and [data.Swap(i, j)] on the slice. *)
Definition Less (data : list A) (i j : nat) : option bool :=
  x ← data !! i; y ← data !! j; Some (less x y).

Definition Swap (data : list A) (i j : nat) : option (list A) :=
  x ← data !! i; y ← data !! j; Some (<[i:=y]> (<[j:=x]> data)).

(** [for i := a + 6; i < b; i++ {
       if data.Less(i, i-6) { data.Swap(i, i-6) } }] *)
Fixpoint gap6_pass (n i : nat) (data : list A) : option (list A) :=
  match n with
  | O => Some data
  | S n' =>
      c ← Less data i (i - 6);
      data' ← (if c : bool then Swap data i (i - 6) else Some data);
      gap6_pass n' (S i) data'
  end.

(** [for j := i; j > a && data.Less(j, j-1); j-- { data.Swap(j, j-1) }] *)
Fixpoint sift_left (a j : nat) (data : list A) : option (list A) :=
  match j with
  | O => Some data
  | S j' =>
      if (a <? j)%nat then
        c ← Less data j j';
        if c : bool then data' ← Swap data j j'; sift_left a j' data'
        else Some data
      else Some data
  end.

(** [for i := a + 1; i < b; i++ { ... }] *)
Fixpoint insertion_loop (a n i : nat) (data : list A) : option (list A) :=
  match n with
  | O => Some data
  | S n' => data' ← sift_left a i data; insertion_loop a n' (S i) data'
  end.

Definition insertionSort_func (data : list A) (a b : nat) : option (list A) :=
  insertion_loop a (b - (a + 1)) (a + 1) data.

(** [quickSort_func(data, 0, length, maxDepth)] on a slice of at most
    twelve elements: the partitioning loop is skipped, one pass with
    gap 6 is made, then insertion sort.  Longer slices are outside this
    definition ([None]). *)
Definition quickSort_small (data : list A) : option (list A) :=
  let a := 0%nat in
  let b := length data in
  if (12 <? b - a)%nat then None
  else if (1 <? b - a)%nat then
    data' ← gap6_pass (b - (a + 6)) (a + 6) data;
    insertionSort_func data' a b
  else Some data.

End Sorting.

(** Stability of a rearrangement with respect to a key: for every key
    value, the elements carrying it appear in the same order before
    and after. *)
Definition stable_on {A : Type} (key : A -> Z) (xs ys : list A) : Prop :=
  forall k, List.filter (fun a => key a =? k) ys
            = List.filter (fun a => key a =? k) xs.

(** The comparison closure of [main]:
    [results[i].Delta < results[j].Delta]. *)
Definition less_Delta (a b : Result) : bool := Delta a <? Delta b.

(** The ranking step of [main]. *)
Definition rank (results ranked : list Result) : Prop :=
  sort_Slice less_Delta results ranked.

(** ** The probe fan-out of [main]

    Every goroutine calls [AvgPing] once, outside the lock, and then
    either counts an error or appends one [Result], both under the
    mutex.  Everything else it touches is its own copy of the server.
    A goroutine is therefore one atomic transition of the state the
    mutex guards, and the scheduler picks which unfinished goroutine
    makes it.  [AvgPing] is the external probe transport: a run is
    described by what it returns to each call. *)

Module Orchestrator.

(** The pair [(time.Duration, error)] returned by [AvgPing]. *)
Inductive ProbeOutcome :=
| ProbeOk (avg : Z)
| ProbeErr (msg : string).

(** A goroutine: its copy of the server, and what its call
    [AvgPing(server.IP, 3)] returns. *)
Definition Task : Type := Server * ProbeOutcome.

Definition failed (t : Task) : bool :=
  match t.2 with ProbeErr _ => true | ProbeOk _ => false end.

(** The variables shared under [mu]; [probes] counts the calls of
    [AvgPing] made so far by the goroutines. *)
Record Shared := mkShared {
  results : list Result;
  progressCount : Z;
  probes : nat
}.

(** The success branch of the goroutine, up to the [Result] it
    appends. *)
Definition measure (targetRTT : Z) (server : Server) (avg : Z) : Result :=
  let server := set_AvgRTT server avg in
  let delta := Duration.sub avg targetRTT in
  let delta := if delta <? 0 then Duration.neg delta else delta in
  let estimatedDistance := rttToDistance delta in
  mkResult server delta estimatedDistance.

(** The body of [go func(server Server) { ... }(s)]. *)
Definition worker (targetRTT : Z) (sh : Shared) (t : Task) : Shared :=
  match t with
  | (server, ProbeErr _) =>
      mkShared (results sh) (progressCount sh + 1) (S (probes sh))
  | (server, ProbeOk avg) =>
      mkShared (results sh ++ [measure targetRTT server avg])
               (progressCount sh + 1) (S (probes sh))
  end.

(** [pending]: the goroutines that have not finished. *)
Record State := mkState {
  pending : list Task;
  shared : Shared
}.

Definition init (tasks : list Task) : State :=
  mkState tasks (mkShared [] 0 0).

Inductive step (targetRTT : Z) : State -> State -> Prop :=
| step_finish l1 t l2 sh :
    step targetRTT (mkState (l1 ++ t :: l2) sh)
                   (mkState (l1 ++ l2) (worker targetRTT sh t)).

(** [wg.Wait()] returns in a state with no goroutine left. *)
Definition joined (targetRTT : Z) (tasks : list Task) (sh : Shared) : Prop :=
  rtc (step targetRTT) (init tasks) (mkState [] sh).

(** How [main] ends, from the probe of the target on. *)
Inductive Outcome :=
| TargetUnreachable (msg : string)
| NoServerAnswered
| Analysed (ranked : list Result).

Inductive main (target : ProbeOutcome) (tasks : list Task)
    : Outcome -> Prop :=
| main_target_error msg :
    target = ProbeErr msg ->
    main target tasks (TargetUnreachable msg)
| main_no_answer targetRTT sh :
    target = ProbeOk targetRTT ->
    joined targetRTT tasks sh ->
    length (results sh) = 0%nat ->
    main target tasks NoServerAnswered
| main_analysed targetRTT sh ranked :
    target = ProbeOk targetRTT ->
    joined targetRTT tasks sh ->
    length (results sh) <> 0%nat ->
    rank (results sh) ranked ->
    main target tasks (Analysed ranked).

(** One [Result] per successful probe, in catalog order. *)
Definition measurements (targetRTT : Z) (tasks : list Task) : list Result :=
  omap (fun t : Task =>
          match t.2 with
          | ProbeOk avg => Some (measure targetRTT t.1 avg)
          | ProbeErr _ => None
          end) tasks.

(** An elapsed time that a [Duration] can hold. *)
Definition plausible_rtt (rtt : Z) : Prop := 0 <= rtt < 2 ^ 63.

Definition plausible_task (t : Task) : Prop :=
  match t.2 with
  | ProbeOk avg => plausible_rtt avg
  | ProbeErr _ => True
  end.

(** The invariant of the data model on one [Result]. *)
Definition measurement_ok (targetRTT : Z) (m : Result) : Prop :=
  0 <= Delta m /\ (0 <= Distance m)%R /\
  Delta m = Z.abs (AvgRTT (Srv m) - targetRTT) /\
  Distance m = rttToDistance (Delta m).

(** What holds of the shared state while goroutines are running:
    results and unfinished successes together make up the successes
    of the catalog, and every finished goroutine has probed once and
    counted once. *)
Definition fanout_inv (targetRTT : Z) (tasks : list Task) (s : State) : Prop :=
  results (shared s) ++ measurements targetRTT (pending s)
    ≡ₚ measurements targetRTT tasks /\
  (probes (shared s) + length (pending s) = length tasks)%nat /\
  progressCount (shared s) + Z.of_nat (length (pending s))
    = Z.of_nat (length tasks).

End Orchestrator.

(** ** [displayStatistics]

    [countryStats] is a Go map.  Ranging over a Go map visits the
    entries in an order the language leaves unspecified, so the slice
    [countries] built from it is any arrangement of the entries; it is
    then sorted with [sort.Slice], and the first ten are printed. *)

Module Statistics.

(** [countryStats[r.Server.Country]++] *)
Definition bump (m : gmap string Z) (r : Result) : gmap string Z :=
  <[Country (Srv r) := default 0 (m !! Country (Srv r)) + 1]> m.

Definition countryStats (results : list Result) : gmap string Z :=
  foldl bump ∅ results.

(** [type countryCount struct { country string; count int }] *)
Definition countryCount : Type := string * Z.

(** [countries[i].count > countries[j].count] *)
Definition less_count (a b : countryCount) : bool := a.2 >? b.2.

(** [totalRTT += r.Server.AvgRTT] over the results. *)
Definition totalRTT (results : list Result) : Z :=
  foldl (fun acc r => Duration.add acc (AvgRTT (Srv r))) 0 results.

(** What the function prints: the rows of the country table, the
    mean RTT and the number of servers. *)
Record Stats := mkStats {
  shown : list countryCount;
  avgRTT : Z;
  total : Z
}.

Inductive displayStatistics (results : list Result)
    : option Stats -> Prop :=
| stats_nothing :
    length results = 0%nat ->
    displayStatistics results None
| stats_printed countries sorted :
    length results <> 0%nat ->
    countries ≡ₚ map_to_list (countryStats results) ->
    sort_Slice less_count countries sorted ->
    displayStatistics results
      (Some (mkStats (take 10 sorted)
               (Z.quot (totalRTT results) (Z.of_nat (length results)))
               (Z.of_nat (length results)))).

(** Number of results carrying the country label [c]. *)
Definition occurrences (c : string) (results : list Result) : Z :=
  Z.of_nat (length (List.filter (fun r => String.eqb (Country (Srv r)) c)
                                results)).

(** The labels in the order in which they are first met. *)
Fixpoint first_occurrences (l : list string) : list string :=
  match l with
  | [] => []
  | c :: l' =>
      c :: List.filter (fun d => negb (String.eqb d c)) (first_occurrences l')
  end.

Definition encounter_counts (results : list Result) : list countryCount :=
  List.map (fun c => (c, occurrences c results))
           (first_occurrences (List.map (fun r => Country (Srv r)) results)).

(** Rows with equal counts follow the encounter order (as far as the
    table goes). *)
Definition ties_in_encounter_order (results : list Result)
    (rows : list countryCount) : Prop :=
  forall k,
    List.filter (fun a : countryCount => a.2 =? k) rows
    `prefix_of`
    List.filter (fun a : countryCount => a.2 =? k) (encounter_counts results).

(** Exact sum of the latencies, without wrap-around. *)
Definition sumRTT (results : list Result) : Z :=
  foldr (fun r acc => AvgRTT (Srv r) + acc) 0 results.

End Statistics.

(** ** The solvers in the words of the specification *)

Section SolverSpecs.
Local Open Scope R_scope.

Definition Rsum (l : list R) : R := foldr Rplus 0 l.

(** Weighted arithmetic mean of [xs] with weights [ws]. *)
Definition weighted_mean (ws xs : list R) : R :=
  Rsum (zip_with Rmult xs ws) / Rsum ws.

(** The requested count clamped to the length, and the entries it
    selects. *)
Definition clamp (numServers : Z) (results : list Result) : Z :=
  Z.min numServers (Z.of_nat (length results)).

Definition top (numServers : Z) (results : list Result) : list Result :=
  take (Z.to_nat (clamp numServers results)) results.

(** The weight [1/(delta_in_ms + 1)] of each entry. *)
Definition weights_of (l : list Result) : list R :=
  List.map (fun r => 1 / (IZR (Duration.Milliseconds (Delta r)) + 1)) l.

Definition multilateration_spec (results : list Result) (numServers : Z)
    : Location :=
  let entries := top numServers results in
  let ws := weights_of entries in
  mkLocation (weighted_mean ws (List.map (fun r => Lat (Srv r)) entries))
             (weighted_mean ws (List.map (fun r => Lon (Srv r)) entries)).

(** Smallest and largest element of a list ([0] for the empty one). *)
Definition Rlist_min (l : list R) : R :=
  match l with [] => 0 | x :: l' => foldr Rmin x l' end.

Definition Rlist_max (l : list R) : R :=
  match l with [] => 0 | x :: l' => foldr Rmax x l' end.

(** Points and vectors of the Earth-centred frame. *)
Definition Vec : Type := R * R * R.

Definition vnorm (v : Vec) : R :=
  let '(x, y, z) := v in sqrt (x * x + y * y + z * z).

Definition vscale (k : R) (v : Vec) : Vec :=
  let '(x, y, z) := v in (k * x, k * y, k * z).

Definition vadd (u v : Vec) : Vec :=
  let '(x, y, z) := u in let '(x', y', z') := v in (x + x', y + y', z + z').

(** Weighted centroid of three points. *)
Definition centroid3 (w1 w2 w3 : R) (p1 p2 p3 : Vec) : Vec :=
  vscale (/ (w1 + w2 + w3))
         (vadd (vadd (vscale w1 p1) (vscale w2 p2)) (vscale w3 p3)).

(** The vector rescaled to length [earthRadius]. *)
Definition onto_sphere (v : Vec) : Vec := vscale (earthRadius / vnorm v) v.

Definition trilateration_spec (s1 s2 s3 : Server) (d1 d2 d3 : R) : Location :=
  let p1 := geoToCartesian (Lat s1) (Lon s1) in
  let p2 := geoToCartesian (Lat s2) (Lon s2) in
  let p3 := geoToCartesian (Lat s3) (Lon s3) in
  let c := centroid3 (1 / (d1 + 1)) (1 / (d2 + 1)) (1 / (d3 + 1)) p1 p2 p3 in
  let '(x, y, z) := onto_sphere c in
  let '(lat, lon) := cartesianToGeo x y z in
  mkLocation lat lon.

(** The share of one weight in the total: its influence on the
    weighted mean. *)
Definition influence (w others : R) : R := w / (w + others).

End SolverSpecs.

(** ** The conversions and the trilateration in the words of the specification

    Written without the program's [geoToCartesian], [cartesianToGeo]
    and [trilaterate]: a geographic point is the unit vector of its
    two angles scaled to the radius 6371; the way back takes the
    longitude as [atan2(y, x)] and the latitude as
    [atan2(z, hypot(x, y))], both in degrees. *)

Section TrilaterationWords.
Local Open Scope R_scope.

Definition radians (deg : R) : R := deg * PI / 180.
Definition degrees (rad : R) : R := rad * 180 / PI.

(** The point of the unit sphere at latitude [phi] and longitude
    [lambda], both in radians. *)
Definition unit_direction (phi lambda : R) : Vec :=
  (cos phi * cos lambda, cos phi * sin lambda, sin phi).

Definition spec_GeoToCartesian (lat lon : R) : Vec :=
  vscale 6371 (unit_direction (radians lat) (radians lon)).

Definition hypot (x y : R) : R := sqrt (x² + y²).

Definition spec_CartesianToGeo (v : Vec) : R * R :=
  let '(x, y, z) := v in
  (degrees (Atan2 z (hypot x y)), degrees (Atan2 y x)).

(** Three (latitude, longitude, distance) triples to one Location:
    sphere points, weights [1/(distance+1)], weighted centroid, the
    centroid rescaled to length 6371, and the way back. *)
Definition spec_Trilaterate (n1 n2 n3 : R * R * R) : Location :=
  let point := fun n : R * R * R => spec_GeoToCartesian n.1.1 n.1.2 in
  let weight := fun n : R * R * R => 1 / (n.2 + 1) in
  let c := centroid3 (weight n1) (weight n2) (weight n3)
                     (point n1) (point n2) (point n3) in
  let p := vscale (6371 / vnorm c) c in
  mkLocation (spec_CartesianToGeo p).1 (spec_CartesianToGeo p).2.

End TrilaterationWords.

(** ** The multilateration loop in binary64

    The exact reals leave rounding out.  To see what rounding does,
    the loop of [multilateralTriangulation] is written once more over
    IEEE 754 binary64 with round-to-nearest operations (Go's [float64]
    when the compiler does not fuse multiply and add), on entries
    reduced to the fields the loop reads. *)

Module Binary64.
Import PrimFloat.

(** The fields of a [Result] that the loop reads:
    [Server.Lat], [Server.Lon] and [Delta]. *)
Record Entry := mkEntry { ELat : float; ELon : float; EDelta : Z }.

(** [float64(n)] for an [int64] of magnitude below [2^53], where the
    conversion is exact. *)
Definition of_int64 (n : Z) : float :=
  if n <? 0 then PrimFloat.opp (PrimFloat.of_uint63 (Uint63.of_Z (- n)))
  else PrimFloat.of_uint63 (Uint63.of_Z n).

Definition weight (delta : Z) : float :=
  (1 / (of_int64 (Duration.Milliseconds delta) + 1))%float.

Record Totals := mkTotals { totalLat : float; totalLon : float; totalWeight : float }.

Definition body (acc : Totals) (e : Entry) : Totals :=
  let weight := weight (EDelta e) in
  mkTotals (totalLat acc + ELat e * weight)%float
           (totalLon acc + ELon e * weight)%float
           (totalWeight acc + weight)%float.

Fixpoint loop (entries : list Entry) (n i : nat) (acc : Totals) : option Totals :=
  match n with
  | O => Some acc
  | S n' =>
      match entries !! i with
      | None => None
      | Some e => loop entries n' (S i) (body acc e)
      end
  end.

Definition multilateralTriangulation (entries : list Entry) (numServers : Z)
    : option (float * float) :=
  if Z.of_nat (length entries) <? 3 then Some (0, 0)%float
  else
    let numServers :=
      if numServers >? Z.of_nat (length entries)
      then Z.of_nat (length entries) else numServers in
    match loop entries (Z.to_nat numServers) 0 (mkTotals 0 0 0) with
    | None => None
    | Some t => Some (totalLat t / totalWeight t, totalLon t / totalWeight t)%float
    end.

(** Four servers of one city, as the catalog has several. *)
#[warnings="-inexact-float"]
Definition lat_tokyo : float := 35.6762.
#[warnings="-inexact-float"]
Definition lon_tokyo : float := 139.6503.
Definition tokyo (delta : Z) : Entry := mkEntry lat_tokyo lon_tokyo delta.

(** The weight line of [trilaterate]. *)
Definition trilaterate_weight (d : float) : float := (1.0 / (d + 1.0))%float.
#[warnings="-inexact-float"]
Definition tiny : float := 1e-17.

Definition same_city : list Entry :=
  [tokyo 233000000; tokyo 256000000; tokyo 231000000; tokyo 157000000].

End Binary64.

(** Three catalog servers for the binary64 loop: Paris 7.5 ms from
    the target, Strasbourg and Karlsruhe both 10 ms. *)

Module Binary64Order.
Import PrimFloat.

#[warnings="-inexact-float"]
Definition paris : Binary64.Entry := Binary64.mkEntry 48.8566 2.3522 7500000.
#[warnings="-inexact-float"]
Definition strasbourg : Binary64.Entry := Binary64.mkEntry 48.5734 7.7521 10000000.
#[warnings="-inexact-float"]
Definition karlsruhe : Binary64.Entry := Binary64.mkEntry 49.0069 8.4037 10000000.

Definition latitude (out : option (float * float)) : float :=
  match out with Some (lat, _) => lat | None => nan end.

End Binary64Order.

(** ** Sample catalog entries and runs *)

Section Samples.
Import Orchestrator.

Definition paris : Server :=
  mkServer "Cloudflare" "1.1.1.1" "France" "Paris" 48.8566%R 2.3522%R 0.
Definition london : Server :=
  mkServer "BBC" "151.101.0.81" "UK" "London" 51.5074%R (-0.1278)%R 0.
Definition berlin : Server :=
  mkServer "Hetzner" "88.198.0.1" "Germany" "Berlin" 52.52%R 13.405%R 0.

(** A run in which London does not answer; the target answers in
    20 ms, Paris in 30 ms and Berlin in 12.5 ms. *)
Definition sample_target : Z := 20000000.
Definition sample_tasks : list Task :=
  [ (paris, ProbeOk 30000000);
    (london, ProbeErr "aucune réponse");
    (berlin, ProbeOk 12500000) ].

(** Two measurements 10 ms away from the target, and one 7.5 ms
    away. *)
Definition tie_paris : Result :=
  mkResult (set_AvgRTT paris 30000000) 10000000 (rttToDistance 10000000).
Definition tie_london : Result :=
  mkResult (set_AvgRTT london 10000000) 10000000 (rttToDistance 10000000).
Definition near_berlin : Result :=
  mkResult (set_AvgRTT berlin 12500000) 7500000 (rttToDistance 7500000).
(** A measurement 40 ms away from the target. *)
Definition far_london : Result :=
  mkResult (set_AvgRTT london 60000000) 40000000 (rttToDistance 40000000).

(** Seven results as the goroutines may have appended them, and a
    ranking of them. *)
Definition unranked_sample : list Result :=
  [tie_paris; tie_london; far_london; far_london; far_london; far_london;
   near_berlin].
Definition ranked_sample : list Result :=
  [near_berlin; tie_london; tie_paris; far_london; far_london; far_london;
   far_london].

(** Three nodes on the equator, at longitudes 0, 90 and -90. *)
Definition equator_0 : Server :=
  mkServer "A" "192.0.2.1" "Atlantic" "Null Island" 0%R 0%R 0.
Definition equator_east : Server :=
  mkServer "B" "192.0.2.2" "Indian Ocean" "East" 0%R 90%R 0.
Definition equator_west : Server :=
  mkServer "C" "192.0.2.3" "Pacific" "West" 0%R (-90)%R 0.

End Samples.

(** * The rest of the program *)

(** ** Great-circle distance *)

Section Haversine.
Local Open Scope R_scope.

(** In exact arithmetic the haversine term [a] lies between 0 and 1.
    In [float64] rounding can push it just above 1 for nearly
    antipodal points, where [math.Sqrt(1-a)] is NaN; the exact reals
    do not show that, and nothing below is stated for such pairs. *)
Definition distance (lat1 lon1 lat2 lon2 : R) : R :=
  let dLat := (lat2 - lat1) * PI / 180 in
  let dLon := (lon2 - lon1) * PI / 180 in
  let a := sin (dLat / 2) * sin (dLat / 2) +
           cos (lat1 * PI / 180) * cos (lat2 * PI / 180) *
           sin (dLon / 2) * sin (dLon / 2) in
  let c := 2 * Atan2 (sqrt a) (sqrt (1 - a)) in
  earthRadius * c.

End Haversine.

(** The Location of the direction of a vector: [cartesianToGeo] on its
    components, as [trilaterate] ends. *)
Definition locate (v : Vec) : Location :=
  let '(x, y, z) := v in
  let '(lat, lon) := cartesianToGeo x y z in
  mkLocation lat lon.

(** The weighted sum of the three sphere points that [trilaterate]
    forms before it divides by the total weight. *)
Definition weighted_sum3 (s1 s2 s3 : Server) (d1 d2 d3 : R) : Vec :=
  vadd (vadd (vscale (trilaterate_weight d1) (geoToCartesian (Lat s1) (Lon s1)))
             (vscale (trilaterate_weight d2) (geoToCartesian (Lat s2) (Lon s2))))
       (vscale (trilaterate_weight d3) (geoToCartesian (Lat s3) (Lon s3))).

(** ** [displayResults]

    The table of the fifteen closest servers: for each row the
    proximity indicator, the rank [i+1] and the result it prints. *)

Definition proximity (delta : Z) : string :=
  let proximity := "[+++]"%string in
  let proximity :=
    if delta >? 50 * Duration.Millisecond then "[++ ]"%string else proximity in
  let proximity :=
    if delta >? 100 * Duration.Millisecond then "[+  ]"%string else proximity in
  let proximity :=
    if delta >? 200 * Duration.Millisecond then "[   ]"%string else proximity in
  proximity.

Record ResultRow := mkResultRow {
  rowProximity : string;
  rowRank : Z;
  rowResult : Result
}.

(** [for i := 0; i < 15 && i < len(results); i++ { r := results[i]; ... }] *)
Definition displayResults (results : list Result) : list ResultRow :=
  imap (fun i r => mkResultRow (proximity (Delta r)) (Z.of_nat i + 1) r)
       (take 15 results).

(** Number of [+] signs in an indicator. *)
Fixpoint pluses (s : string) : nat :=
  match s with
  | EmptyString => 0
  | String c s' => (if String.eqb (String c EmptyString) "+" then 1 else 0) + pluses s'
  end.

(** ** The coherence analysis of [displayTriangulation]

    The last part of the function, after the two estimates. *)

(** [avgDelta := time.Duration(0);
     for i := 0; i < 5 && i < len(results); i++ { avgDelta += results[i].Delta };
     avgDelta /= time.Duration(5)] *)
Definition top5_avgDelta (results : list Result) : Z :=
  let avgDelta :=
    foldl (fun avgDelta r => Duration.add avgDelta (Delta r)) 0 (take 5 results) in
  Z.quot avgDelta 5.

Definition coherence (avgDelta : Z) : string :=
  let coherence := "EXCELLENTE"%string in
  let coherence :=
    if avgDelta >? 50 * Duration.Millisecond then "BONNE"%string else coherence in
  let coherence :=
    if avgDelta >? 100 * Duration.Millisecond then "MOYENNE"%string else coherence in
  let coherence :=
    if avgDelta >? 200 * Duration.Millisecond then "FAIBLE"%string else coherence in
  coherence.

(** The estimated precision, in km. *)
Definition precision (avgDelta : Z) : R :=
  if avgDelta <? 20 * Duration.Millisecond then 100.0%R
  else if avgDelta <? 50 * Duration.Millisecond then 200.0%R
  else if avgDelta <? 100 * Duration.Millisecond then 300.0%R
  else 500.0%R.

Record CoherenceReport := mkCoherenceReport {
  crCoherence : string;
  crAvgDelta : Z;
  crServers : Z;
  crPrecision : R
}.

(** What [displayTriangulation] prints under "ANALYSE DE COHERENCE";
    [None] when the function has returned at its guard. *)
Definition coherence_analysis (results : list Result) : option CoherenceReport :=
  if Z.of_nat (length results) <? 3 then None
  else
    let avgDelta := top5_avgDelta results in
    Some (mkCoherenceReport (coherence avgDelta) avgDelta
            (Z.of_nat (length results)) (precision avgDelta)).

(** Exact sum of deltas, without wrap-around. *)
Definition sumDelta (results : list Result) : Z :=
  foldr (fun r acc => Delta r + acc) 0 results.

(** Sum of the counts of the rows of a country table. *)
Definition sum_counts (rows : list Statistics.countryCount) : Z :=
  foldr (fun a acc => a.2 + acc) 0 rows.

(** * Properties *)

Import Orchestrator Statistics.

(** ** Durations *)

Lemma wrap_id z : Duration.in_range z -> Duration.wrap z = z.
Proof.
  unfold Duration.in_range, Duration.wrap. intros H.
  rewrite Z.mod_small by lia. lia.
Qed.

Lemma Milliseconds_nonneg d : 0 <= d -> 0 <= Duration.Milliseconds d.
Proof. intros H. unfold Duration.Milliseconds. apply Z.quot_pos; lia. Qed.

Lemma Milliseconds_mono d d' :
  0 <= d' <= d -> Duration.Milliseconds d' <= Duration.Milliseconds d.
Proof.
  intros H. unfold Duration.Milliseconds.
  rewrite !Z.quot_div_nonneg by lia.
  apply Z.div_le_mono; lia.
Qed.

Lemma Seconds_nonneg d : 0 <= d -> (0 <= Duration.Seconds d)%R.
Proof.
  intros H. unfold Duration.Seconds, Duration.Second.
  assert (H1 : 0 <= Z.quot d 1000000000) by (apply Z.quot_pos; lia).
  assert (H2 : 0 <= Z.rem d 1000000000) by (apply Z.rem_nonneg; lia).
  apply IZR_le in H1, H2.
  lra.
Qed.

Lemma fiberSpeed_pos : (0 < fiberSpeed)%R.
Proof. unfold fiberSpeed, speedOfLight. lra. Qed.

Lemma rttToDistance_nonneg d : 0 <= d -> (0 <= rttToDistance d)%R.
Proof.
  intros H. unfold rttToDistance.
  pose proof (Seconds_nonneg d H). pose proof fiberSpeed_pos.
  apply Rmult_le_pos; [ apply Rmult_le_pos |]; lra.
Qed.

(** ** The contract of [sort.Slice] can be met *)

Section SortingFacts.
Context {A : Type} (less : A -> A -> bool).
Hypothesis less_asym : forall a b, less a b = true -> less b a = false.
Hypothesis not_less_trans :
  forall a b c, less a b = false -> less b c = false -> less a c = false.

Lemma insert_left_perm x l : insert_left less x l ≡ₚ x :: l.
Proof.
  induction l as [|p rest IH]; simpl; [reflexivity|].
  destruct (less x p); [|reflexivity].
  rewrite IH. apply perm_swap.
Qed.

Lemma insert_left_sorted x l :
  StronglySorted (fun a b => less a b = false) l ->
  StronglySorted (fun a b => less a b = false) (insert_left less x l).
Proof.
  induction 1 as [|p rest Hs IH Hp]; simpl.
  - repeat constructor.
  - destruct (less x p) eqn:E.
    + constructor; [exact IH|].
      rewrite Forall_forall in *. intros y Hy.
      rewrite insert_left_perm in Hy.
      apply elem_of_cons in Hy as [->|Hy]; [eauto | apply Hp, Hy].
    + constructor; [constructor; assumption|].
      constructor; [exact E|].
      rewrite Forall_forall in *. intros y Hy. eauto.
Qed.

Lemma fold_insert_perm xs acc :
  fold_left (fun acc x => insert_left less x acc) xs acc ≡ₚ xs ++ acc.
Proof.
  revert acc. induction xs as [|x xs IH]; intros acc; simpl; [reflexivity|].
  rewrite IH, insert_left_perm. symmetry. apply Permutation_middle.
Qed.

Lemma fold_insert_sorted xs acc :
  StronglySorted (fun a b => less a b = false) acc ->
  StronglySorted (fun a b => less a b = false)
    (fold_left (fun acc x => insert_left less x acc) xs acc).
Proof.
  revert acc. induction xs as [|x xs IH]; intros acc H; simpl; [exact H|].
  apply IH, insert_left_sorted, H.
Qed.

Lemma StronglySorted_snoc (R : A -> A -> Prop) l x :
  StronglySorted R l -> Forall (fun y => R y x) l ->
  StronglySorted R (l ++ [x]).
Proof.
  induction 1 as [|y l Hs IH Hy]; intros Hx; simpl.
  - repeat constructor.
  - inversion Hx; subst. constructor; [auto|].
    apply Forall_app; split; [exact Hy | repeat constructor; assumption].
Qed.

Lemma StronglySorted_rev (R : A -> A -> Prop) l :
  StronglySorted R l -> StronglySorted (fun a b => R b a) (rev l).
Proof.
  induction 1 as [|y l Hs IH Hy]; simpl; [constructor|].
  apply StronglySorted_snoc; [exact IH|].
  apply Forall_forall. intros z Hz.
  rewrite Forall_forall in Hy. apply Hy.
  apply list_elem_of_In, in_rev, list_elem_of_In, Hz.
Qed.

Lemma insertionSort_meets_contract xs :
  sort_Slice less xs (insertionSort less xs).
Proof.
  unfold sort_Slice, sorted_by, insertionSort. split.
  - rewrite <- Permutation_rev, fold_insert_perm, app_nil_r. reflexivity.
  - apply (StronglySorted_rev (fun a b => less a b = false)).
    apply fold_insert_sorted. constructor.
Qed.

End SortingFacts.

Lemma rank_exists results : exists ranked, rank results ranked.
Proof.
  exists (insertionSort less_Delta results).
  apply insertionSort_meets_contract; unfold less_Delta; intros; lia.
Qed.

(** ** The probe fan-out *)

Section Fanout.
Import Orchestrator.
Variable targetRTT : Z.

Lemma measurements_app l1 l2 :
  measurements targetRTT (l1 ++ l2)
  = measurements targetRTT l1 ++ measurements targetRTT l2.
Proof. unfold measurements. apply omap_app. Qed.

Lemma measurements_length tasks :
  (length (measurements targetRTT tasks)
   + length (List.filter failed tasks) = length tasks)%nat.
Proof.
  induction tasks as [|[s [avg|msg]] tasks IH]; simpl in *; lia.
Qed.

Lemma worker_results sh t :
  results (worker targetRTT sh t)
  = results sh ++ measurements targetRTT [t].
Proof.
  destruct t as [s [avg|msg]]; simpl; [reflexivity|].
  symmetry. apply app_nil_r.
Qed.

Lemma worker_counts sh t :
  probes (worker targetRTT sh t) = S (probes sh) /\
  progressCount (worker targetRTT sh t) = progressCount sh + 1.
Proof. destruct t as [s [avg|msg]]; simpl; split; reflexivity. Qed.

Lemma fanout_inv_init tasks : fanout_inv targetRTT tasks (init tasks).
Proof. unfold fanout_inv, init; simpl. repeat split; lia || reflexivity. Qed.

Lemma fanout_inv_step tasks s s' :
  fanout_inv targetRTT tasks s -> step targetRTT s s' ->
  fanout_inv targetRTT tasks s'.
Proof.
  intros (Hres & Hprobes & Hcount) Hstep.
  destruct Hstep as [l1 t l2 sh]. unfold fanout_inv in *; simpl in *.
  destruct (worker_counts sh t) as [-> ->].
  rewrite worker_results.
  rewrite !length_app in *; simpl in *.
  repeat split; [|lia|lia].
  rewrite <- Hres.
  change (t :: l2) with ([t] ++ l2).
  rewrite !measurements_app.
  rewrite <- !app_assoc. apply Permutation_app_head.
  rewrite !app_assoc. apply Permutation_app_tail, Permutation_app_comm.
Qed.

Lemma fanout_inv_reachable tasks s :
  rtc (step targetRTT) (init tasks) s -> fanout_inv targetRTT tasks s.
Proof.
  intros H. apply rtc_nsteps in H as [n H]. revert s H.
  induction n as [|n IH]; intros s H.
  - inversion H; subst. apply fanout_inv_init.
  - apply nsteps_inv_r in H as (s0 & H0 & Hstep).
    eapply fanout_inv_step; eauto.
Qed.

(** The goroutines can always be run to completion: the join of
    [wg.Wait()] is reached. *)
Lemma fanout_terminates l sh :
  rtc (step targetRTT) (mkState l sh)
      (mkState [] (foldl (worker targetRTT) sh l)).
Proof.
  revert sh. induction l as [|t l IH]; intros sh; simpl.
  - apply rtc_refl.
  - eapply rtc_l; [apply (step_finish targetRTT [] t l sh) | apply IH].
Qed.

Lemma step_results_prefix s s' :
  step targetRTT s s' -> results (shared s) `prefix_of` results (shared s').
Proof.
  intros [l1 t l2 sh]; simpl. rewrite worker_results. apply prefix_app_r.
  reflexivity.
Qed.

Lemma steps_results_prefix s s' :
  rtc (step targetRTT) s s' ->
  results (shared s) `prefix_of` results (shared s').
Proof.
  induction 1 as [|s1 s2 s3 H12 _ IH]; [reflexivity|].
  etransitivity; [apply step_results_prefix, H12 | exact IH].
Qed.

End Fanout.

Lemma measure_ok targetRTT server avg :
  plausible_rtt targetRTT -> plausible_rtt avg ->
  measurement_ok targetRTT (measure targetRTT server avg).
Proof.
  unfold plausible_rtt, measurement_ok, measure. intros Ht Ha. simpl.
  unfold Duration.sub. rewrite (wrap_id (avg - targetRTT))
    by (unfold Duration.in_range; lia).
  assert (Hd : (if avg - targetRTT <? 0
                then Duration.neg (avg - targetRTT) else avg - targetRTT)
               = Z.abs (avg - targetRTT)).
  { destruct (Z.ltb_spec (avg - targetRTT) 0).
    - unfold Duration.neg. rewrite wrap_id by (unfold Duration.in_range; lia).
      lia.
    - lia. }
  rewrite Hd. repeat split; try lia.
  apply rttToDistance_nonneg. lia.
Qed.

Lemma measurements_ok targetRTT tasks :
  plausible_rtt targetRTT -> Forall plausible_task tasks ->
  Forall (measurement_ok targetRTT) (measurements targetRTT tasks).
Proof.
  intros Ht. induction 1 as [|[s [avg|msg]] tasks Hp _ IH]; simpl.
  - constructor.
  - constructor; [apply measure_ok; assumption | exact IH].
  - exact IH.
Qed.

(** C1. Partial-failure tolerance.  When the target answers and exactly
    [K < N] of the [N] probes of the catalog fail, [main] can finish and
    however the goroutines are scheduled it finishes with a ranked set:
    it never stops on the target or the no-answer branch.  At the join
    the result slice holds exactly [N - K] entries, one per successful
    probe and none for a failed one, and [AvgPing] has been called once
    per server (no retry). *)
Theorem partial_failure_tolerance (targetRTT : Z) (tasks : list Task) (K : nat) :
  length (List.filter failed tasks) = K ->
  (K < length tasks)%nat ->
  (exists ranked, main (ProbeOk targetRTT) tasks (Analysed ranked)) /\
  (forall sh, joined targetRTT tasks sh ->
     length (results sh) = (length tasks - K)%nat /\
     results sh ≡ₚ measurements targetRTT tasks /\
     probes sh = length tasks /\
     progressCount sh = Z.of_nat (length tasks)) /\
  (forall o, main (ProbeOk targetRTT) tasks o ->
     exists ranked, o = Analysed ranked /\
       length ranked = (length tasks - K)%nat /\
       ranked ≡ₚ measurements targetRTT tasks).
Proof.
  intros HK Hlt.
  pose proof (measurements_length targetRTT tasks) as Hlen.
  assert (Hjoin : forall sh, joined targetRTT tasks sh ->
     length (results sh) = (length tasks - K)%nat /\
     results sh ≡ₚ measurements targetRTT tasks /\
     probes sh = length tasks /\
     progressCount sh = Z.of_nat (length tasks)).
  { intros sh Hsh. apply fanout_inv_reachable in Hsh.
    destruct Hsh as (Hres & Hp & Hc); simpl in *.
    rewrite app_nil_r in Hres.
    repeat split; [|exact Hres|lia|lia].
    rewrite Hres. lia. }
  split; [|split; [exact Hjoin|]].
  - pose (sh := foldl (worker targetRTT) (mkShared [] 0 0) tasks).
    assert (Hsh : joined targetRTT tasks sh) by apply fanout_terminates.
    destruct (rank_exists (results sh)) as [ranked Hr].
    exists ranked. eapply main_analysed; eauto.
    destruct (Hjoin sh Hsh) as [-> _]. lia.
  - intros o Ho. inversion Ho as [msg E|t sh E Hsh Hz|t sh ranked E Hsh Hnz Hr];
      subst; try discriminate.
    + injection E as <-. destruct (Hjoin sh Hsh) as [Hl _]. lia.
    + injection E as <-. destruct (Hjoin sh Hsh) as (Hl & Hperm & _).
      destruct Hr as [Hp _].
      exists ranked. split; [reflexivity|]. split.
      * rewrite <- Hp. exact Hl.
      * rewrite <- Hp. exact Hperm.
Qed.

Lemma partial_failure_tolerance_witness :
  length (List.filter failed sample_tasks) = 1%nat /\
  (1 < length sample_tasks)%nat /\
  (forall o, main (ProbeOk sample_target) sample_tasks o ->
     exists ranked, o = Analysed ranked /\
       length ranked = (length sample_tasks - 1)%nat /\
       ranked ≡ₚ measurements sample_target sample_tasks).
Proof.
  split; [reflexivity|]. split; [simpl; lia|].
  apply (partial_failure_tolerance sample_target sample_tasks 1);
    [reflexivity | simpl; lia].
Defined.

(** C8. Every [Result] the goroutines have appended satisfies
    [Delta >= 0] and [Distance >= 0]: [Delta] is the absolute
    difference of the node's average RTT and the target's RTT, and
    [Distance] is [rttToDistance] of it.  Later transitions only
    append, so an entry once written is not changed, and ranking only
    rearranges the entries.  The round-trip times are elapsed times
    that fit a [Duration]. *)
Theorem measurement_invariant (targetRTT : Z) (tasks : list Task) (s : State) :
  plausible_rtt targetRTT ->
  Forall plausible_task tasks ->
  rtc (step targetRTT) (init tasks) s ->
  Forall (measurement_ok targetRTT) (results (shared s)) /\
  (forall s', rtc (step targetRTT) s s' ->
     results (shared s) `prefix_of` results (shared s')) /\
  (forall ranked, rank (results (shared s)) ranked ->
     ranked ≡ₚ results (shared s) /\
     Forall (measurement_ok targetRTT) ranked).
Proof.
  intros Ht Htasks Hreach.
  assert (Hall : Forall (measurement_ok targetRTT) (results (shared s))).
  { apply fanout_inv_reachable in Hreach as (Hres & _).
    pose proof (measurements_ok targetRTT tasks Ht Htasks) as Hok.
    rewrite <- Hres in Hok. apply Forall_app in Hok. tauto. }
  split; [exact Hall|]. split.
  - intros s'. apply steps_results_prefix.
  - intros ranked [Hp _]. split; [symmetry; exact Hp|].
    rewrite <- Hp. exact Hall.
Qed.

Lemma measurement_invariant_witness :
  plausible_rtt sample_target /\
  Forall plausible_task sample_tasks /\
  Forall (measurement_ok sample_target)
    [measure sample_target paris 30000000;
     measure sample_target berlin 12500000].
Proof.
  assert (Ht : plausible_rtt sample_target)
    by (unfold plausible_rtt, sample_target; lia).
  assert (Hp : Forall plausible_task sample_tasks)
    by (repeat constructor; unfold plausible_rtt; simpl; lia).
  split; [exact Ht|]. split; [exact Hp|].
  exact (proj1 (measurement_invariant sample_target sample_tasks
           (mkState [] (foldl (worker sample_target) (mkShared [] 0 0)
                              sample_tasks)) Ht Hp
           (fanout_terminates sample_target sample_tasks (mkShared [] 0 0)))).
Defined.

(** ** The multilateration loop *)

Lemma multilateral_loop_fold results n i acc :
  (i + n <= length results)%nat ->
  multilateral_loop results n i acc
  = Some (foldl multilateral_body acc (take n (drop i results))).
Proof.
  revert i acc. induction n as [|n IH]; intros i acc Hle; simpl.
  - reflexivity.
  - destruct (results !! i) as [r|] eqn:Hr.
    + rewrite IH by lia.
      rewrite (drop_S results r i Hr). reflexivity.
    + apply lookup_ge_None in Hr. lia.
Qed.

Lemma clamp_to_nat_le numServers (results : list Result) :
  (Z.to_nat (clamp numServers results) <= length results)%nat.
Proof. unfold clamp. lia. Qed.

Lemma multilateral_totals_fold results numServers :
  multilateral_totals results numServers
  = Some (foldl multilateral_body (mkTotals 0 0 0) (top numServers results)).
Proof.
  unfold multilateral_totals, top.
  set (n := if numServers >? Z.of_nat (length results)
            then Z.of_nat (length results) else numServers).
  assert (Hn : n = clamp numServers results).
  { unfold n, clamp.
    destruct (Z.gtb_spec numServers (Z.of_nat (length results))); lia. }
  rewrite Hn.
  rewrite multilateral_loop_fold
    by (pose proof (clamp_to_nat_le numServers results); lia).
  rewrite drop_0. reflexivity.
Qed.

(** With at least three entries the function does not panic, and its
    accumulators are the fold of the loop body over the selected
    entries. *)
Lemma multilateralTriangulation_fold results numServers :
  (3 <= length results)%nat ->
  multilateralTriangulation results numServers
  = let t := foldl multilateral_body (mkTotals 0 0 0) (top numServers results) in
    Some (mkLocation (totalLat t / totalWeight t) (totalLon t / totalWeight t)).
Proof.
  intros Hlen. unfold multilateralTriangulation.
  destruct (Z.ltb_spec (Z.of_nat (length results)) 3); [lia|].
  rewrite multilateral_totals_fold. reflexivity.
Qed.

Lemma multilateralTriangulation_total results numServers :
  multilateralTriangulation results numServers <> None.
Proof.
  destruct (le_lt_dec 3 (length results)) as [H|H].
  - rewrite multilateralTriangulation_fold by exact H. discriminate.
  - unfold multilateralTriangulation.
    destruct (Z.ltb_spec (Z.of_nat (length results)) 3); [discriminate|lia].
Qed.

Lemma displayTriangulation_total results :
  displayTriangulation results <> None.
Proof.
  unfold displayTriangulation.
  destruct (Z.ltb_spec (Z.of_nat (length results)) 3) as [H|H]; [discriminate|].
  destruct results as [|r0 [|r1 [|r2 rest]]]; simpl in H; try lia.
  simpl (_ !! _). cbn [mbind option_bind].
  destruct (multilateralTriangulation _ _) eqn:E; [discriminate|].
  exfalso. exact (multilateralTriangulation_total _ _ E).
Qed.

(** C2, as the code has it.  With fewer than three entries
    [multilateralTriangulation] returns the [(0,0)] sentinel for every
    requested count, while [displayTriangulation] prints its error line
    and returns without calling [trilaterate]: the trilateration path
    yields no Location at all.  Neither function panics, on any input. *)
Theorem degenerate_input_policy (results : list Result) :
  (length results < 3)%nat ->
  (forall numServers,
     multilateration_path results numServers = Some (mkLocation 0 0)) /\
  displayTriangulation results = Some NotEnoughServers /\
  trilateration_path results = None /\
  (forall rs numServers,
     multilateralTriangulation rs numServers <> None /\
     displayTriangulation rs <> None).
Proof.
  intros Hlen.
  assert (Hd : displayTriangulation results = Some NotEnoughServers).
  { unfold displayTriangulation.
    destruct (Z.ltb_spec (Z.of_nat (length results)) 3); [reflexivity|lia]. }
  repeat split.
  - intros numServers. unfold multilateration_path, multilateralTriangulation.
    destruct (Z.ltb_spec (Z.of_nat (length results)) 3); [reflexivity|lia].
  - exact Hd.
  - unfold trilateration_path. rewrite Hd. reflexivity.
  - apply multilateralTriangulation_total.
  - apply displayTriangulation_total.
Qed.

Lemma degenerate_input_policy_witness :
  (length [measure sample_target paris 30000000] < 3)%nat /\
  displayTriangulation [measure sample_target paris 30000000]
    = Some NotEnoughServers /\
  multilateration_path [measure sample_target paris 30000000] 10
    = Some (mkLocation 0 0).
Proof.
  assert (H : (length [measure sample_target paris 30000000] < 3)%nat)
    by (simpl; lia).
  split; [exact H|].
  destruct (degenerate_input_policy _ H) as (Hm & Hd & _).
  split; [exact Hd | exact (Hm 10)].
Defined.

(** C2 as stated fails on the trilateration path: on the empty list it
    produces no Location, hence not the [(0,0)] sentinel. *)
Lemma degenerate_input_policy_counterexample :
  (length (@nil Result) < 3)%nat /\
  trilateration_path [] <> Some (mkLocation 0 0).
Proof.
  split; [simpl; lia|]. unfold trilateration_path. simpl. discriminate.
Qed.

(** ** Ranking *)

Lemma filter_insert_left (k : Z) (x : Result) (l : list Result) :
  List.filter (fun a => Delta a =? k) (insert_left less_Delta x l)
  = List.filter (fun a => Delta a =? k) (x :: l).
Proof.
  induction l as [|p rest IH]; [reflexivity|].
  simpl insert_left. unfold less_Delta at 1.
  destruct (Z.ltb_spec (Delta x) (Delta p)) as [Hlt|Hge]; [|reflexivity].
  simpl List.filter at 1. rewrite IH. simpl.
  destruct (Z.eqb_spec (Delta x) k), (Z.eqb_spec (Delta p) k);
    try reflexivity; lia.
Qed.

Lemma filter_fold_insert (k : Z) (xs acc : list Result) :
  List.filter (fun a => Delta a =? k)
    (fold_left (fun acc x => insert_left less_Delta x acc) xs acc)
  = rev (List.filter (fun a => Delta a =? k) xs)
    ++ List.filter (fun a => Delta a =? k) acc.
Proof.
  revert acc. induction xs as [|x xs IH]; intros acc; [reflexivity|].
  simpl fold_left. rewrite IH, filter_insert_left. simpl.
  destruct (Delta x =? k); simpl; [|reflexivity].
  rewrite <- app_assoc. reflexivity.
Qed.

Lemma filter_rev' {A} (f : A -> bool) (l : list A) :
  List.filter f (rev l) = rev (List.filter f l).
Proof.
  induction l as [|x l IH]; [reflexivity|]. simpl.
  rewrite List.filter_app, IH. simpl.
  destruct (f x); simpl; [reflexivity | apply app_nil_r].
Qed.

Lemma insertionSort_stable results :
  stable_on Delta results (insertionSort less_Delta results).
Proof.
  intros k. unfold insertionSort.
  rewrite filter_rev', filter_fold_insert. simpl.
  rewrite app_nil_r. apply rev_involutive.
Qed.

Lemma sorted_by_lookup {A} (less : A -> A -> bool) (ys : list A) i j a b :
  sorted_by less ys -> (i < j)%nat ->
  ys !! i = Some a -> ys !! j = Some b -> less b a = false.
Proof.
  intros Hs. revert i j. induction Hs as [|y ys Hs IH Hy]; intros i j Hij Hi Hj.
  - discriminate.
  - destruct j as [|j]; [lia|]. simpl in Hj.
    destruct i as [|i]; simpl in Hi.
    + injection Hi as ->. rewrite Forall_forall in Hy.
      apply Hy. eapply list_elem_of_lookup_2, Hj.
    + eapply (IH i j); eauto. lia.
Qed.

(** C3, as the code has it.  The ranking step returns some
    rearrangement of the measurements in which the deltas never
    decrease; a rearrangement that keeps the order of equal deltas is
    among those it may return, but [sort.Slice] does not promise it. *)
Theorem ranking_sorts_ascending (results : list Result) :
  (exists ranked, rank results ranked /\ stable_on Delta results ranked) /\
  (forall ranked, rank results ranked ->
     ranked ≡ₚ results /\
     length ranked = length results /\
     forall i j a b, (i < j)%nat ->
       ranked !! i = Some a -> ranked !! j = Some b -> Delta a <= Delta b).
Proof.
  split.
  - exists (insertionSort less_Delta results). split.
    + apply insertionSort_meets_contract; unfold less_Delta; intros; lia.
    + apply insertionSort_stable.
  - intros ranked [Hp Hs]. split; [symmetry; exact Hp|].
    split; [symmetry; apply Permutation_length, Hp|].
    intros i j a b Hij Hi Hj.
    pose proof (sorted_by_lookup less_Delta ranked i j a b Hs Hij Hi Hj) as H.
    unfold less_Delta in H. lia.
Qed.

Lemma sample_rank : rank [tie_paris; near_berlin] [near_berlin; tie_paris].
Proof.
  split; [apply perm_swap|].
  repeat constructor.
Qed.

Lemma ranking_sorts_ascending_witness :
  rank [tie_paris; near_berlin] [near_berlin; tie_paris] /\
  Delta near_berlin <= Delta tie_paris.
Proof.
  split; [exact sample_rank|].
  destruct (ranking_sorts_ascending [tie_paris; near_berlin]) as [_ H].
  destruct (H _ sample_rank) as (_ & _ & Hord).
  apply (Hord 0%nat 1%nat); [lia | reflexivity | reflexivity].
Defined.

(** C3 as stated fails: two measurements with the same delta may come
    out of the ranking step in the opposite order.  Here Paris and
    London are both 10 ms away and Paris comes first; the ranking that
    [sort.Slice] of Go 1.16 to 1.18 computes puts London first. *)
Lemma ranking_stability_counterexample :
  rank unranked_sample ranked_sample /\
  quickSort_small less_Delta unranked_sample = Some ranked_sample /\
  ~ stable_on Delta unranked_sample ranked_sample.
Proof.
  unfold unranked_sample, ranked_sample. split; [|split].
  - split.
    + transitivity
        (near_berlin :: [tie_paris; tie_london; far_london; far_london;
                         far_london; far_london]).
      * symmetry.
        apply (Permutation_cons_append
                 [tie_paris; tie_london; far_london; far_london;
                  far_london; far_london] near_berlin).
      * apply perm_skip, perm_swap.
    + repeat constructor.
  - reflexivity.
  - intros H. specialize (H 10000000).
    apply (f_equal (fun l => List.map (fun r => Name (Srv r)) l)) in H.
    discriminate H.
Qed.

(** ** Multilateration *)

Section Multilateration.
Local Open Scope R_scope.

Lemma multilateral_weight_eq delta :
  multilateral_weight delta = 1 / (IZR (Duration.Milliseconds delta) + 1).
Proof. unfold multilateral_weight. f_equal; lra. Qed.

(** The loop adds, to each accumulator, the corresponding sum over
    the entries it visits. *)
Lemma fold_body_sums (l : list Result) (acc : Totals) :
  let t := foldl multilateral_body acc l in
  totalLat t
    = totalLat acc
      + Rsum (zip_with Rmult (List.map (fun r => Lat (Srv r)) l) (weights_of l)) /\
  totalLon t
    = totalLon acc
      + Rsum (zip_with Rmult (List.map (fun r => Lon (Srv r)) l) (weights_of l)) /\
  totalWeight t = totalWeight acc + Rsum (weights_of l).
Proof.
  revert acc. induction l as [|r l IH]; intros acc; simpl.
  - repeat split; lra.
  - destruct (IH (multilateral_body acc r)) as (H1 & H2 & H3).
    simpl in H1, H2, H3. rewrite H1, H2, H3.
    simpl. rewrite multilateral_weight_eq. repeat split; ring.
Qed.

Lemma multilateralTriangulation_spec results numServers :
  (3 <= length results)%nat ->
  multilateralTriangulation results numServers
  = Some (multilateration_spec results numServers).
Proof.
  intros Hlen. rewrite multilateralTriangulation_fold by exact Hlen.
  cbv zeta. unfold multilateration_spec, weighted_mean.
  destruct (fold_body_sums (top numServers results) (mkTotals 0 0 0))
    as (H1 & H2 & H3).
  simpl in H1, H2, H3. rewrite H1, H2, H3, !Rplus_0_l.
  reflexivity.
Qed.

Lemma top_two (a b c : Result) (rest : list Result) :
  top 2 (a :: b :: c :: rest) = [a; b].
Proof.
  unfold top, clamp.
  replace (Z.to_nat (Z.min 2 (Z.of_nat (length (a :: b :: c :: rest)))))
    with 2%nat by (simpl length; lia).
  reflexivity.
Qed.

End Multilateration.

(** C6. With at least three entries, [multilateralTriangulation] clamps
    the requested count to the length, gives each of the first entries
    the weight [1/(delta in ms + 1)] and returns the weighted
    arithmetic means of their latitudes and of their longitudes, with
    no projection.  With deltas 10 ms and 40 ms at (48.8566, 2.3522)
    and (51.5074, -0.1278) as the two selected entries, the weights are
    [1/11] and [1/41] and the output is that weighted mean. *)
Theorem multilateration_is_weighted_mean :
  (forall results numServers,
     (3 <= length results)%nat ->
     multilateralTriangulation results numServers
     = Some (multilateration_spec results numServers)) /\
  (multilateral_weight (Delta tie_paris) = 1 / 11 /\
   multilateral_weight (Delta far_london) = 1 / 41)%R /\
  (forall r3 rest,
     multilateralTriangulation (tie_paris :: far_london :: r3 :: rest) 2
     = Some (mkLocation
               ((48.8566 * (1 / 11) + 51.5074 * (1 / 41)) / (1 / 11 + 1 / 41))
               ((2.3522 * (1 / 11) + -0.1278 * (1 / 41)) / (1 / 11 + 1 / 41))))%R.
Proof.
  split; [exact multilateralTriangulation_spec|].
  assert (H10 : (multilateral_weight (Delta tie_paris) = 1 / 11)%R).
  { rewrite multilateral_weight_eq. simpl.
    change (Duration.Milliseconds 10000000) with 10%Z. f_equal. lra. }
  assert (H40 : (multilateral_weight (Delta far_london) = 1 / 41)%R).
  { rewrite multilateral_weight_eq. simpl.
    change (Duration.Milliseconds 40000000) with 40%Z. f_equal. lra. }
  split; [split; assumption|].
  intros r3 rest.
  rewrite multilateralTriangulation_fold by (simpl; lia).
  rewrite top_two. cbv zeta. simpl foldl.
  unfold multilateral_body. cbn [totalLat totalLon totalWeight].
  rewrite H10, H40. simpl. f_equal. f_equal; f_equal; lra.
Qed.

Lemma multilateration_is_weighted_mean_witness :
  (3 <= length [tie_paris; far_london; near_berlin])%nat /\
  multilateralTriangulation [tie_paris; far_london; near_berlin] 5
  = Some (multilateration_spec [tie_paris; far_london; near_berlin] 5).
Proof.
  split; [simpl; lia|].
  apply (proj1 multilateration_is_weighted_mean). simpl; lia.
Defined.

(** ** Weights and bounds *)

Section Weights.
Local Open Scope R_scope.

Lemma multilateral_weight_pos delta :
  (0 <= delta)%Z -> 0 < multilateral_weight delta.
Proof.
  intros H. rewrite multilateral_weight_eq.
  apply Milliseconds_nonneg, IZR_le in H.
  apply Rdiv_lt_0_compat; lra.
Qed.

Lemma weights_of_pos (l : list Result) :
  Forall (fun r => (0 <= Delta r)%Z) l -> Forall (fun w => 0 < w) (weights_of l).
Proof.
  induction 1 as [|r l Hr _ IH]; simpl; constructor; [|exact IH].
  rewrite <- multilateral_weight_eq. apply multilateral_weight_pos, Hr.
Qed.

Lemma Rsum_pos (ws : list R) :
  ws <> [] -> Forall (fun w => 0 < w) ws -> 0 < Rsum ws.
Proof.
  intros Hne H. induction H as [|w ws Hw Hws IH]; [congruence|].
  simpl. destruct ws as [|w' ws'].
  - simpl. lra.
  - assert (0 < Rsum (w' :: ws')) by (apply IH; discriminate). lra.
Qed.

Lemma Rlist_min_le (l : list R) y : y ∈ l -> Rlist_min l <= y.
Proof.
  destruct l as [|x l]; [intros H; inversion H|]. simpl.
  revert y. induction l as [|z l IH]; intros y Hy; simpl.
  - apply elem_of_cons in Hy as [->|Hy]; [lra | inversion Hy].
  - pose proof (Rmin_l z (foldr Rmin x l)).
    pose proof (Rmin_r z (foldr Rmin x l)).
    apply elem_of_cons in Hy as [->|Hy].
    + assert (Hx : x ∈ x :: l) by (apply elem_of_cons; left; reflexivity).
      specialize (IH x Hx). lra.
    + apply elem_of_cons in Hy as [->|Hy]; [lra|].
      assert (Hx : y ∈ x :: l) by (apply elem_of_cons; right; exact Hy).
      specialize (IH y Hx). lra.
Qed.

Lemma Rlist_max_ge (l : list R) y : y ∈ l -> y <= Rlist_max l.
Proof.
  destruct l as [|x l]; [intros H; inversion H|]. simpl.
  revert y. induction l as [|z l IH]; intros y Hy; simpl.
  - apply elem_of_cons in Hy as [->|Hy]; [lra | inversion Hy].
  - pose proof (Rmax_l z (foldr Rmax x l)).
    pose proof (Rmax_r z (foldr Rmax x l)).
    apply elem_of_cons in Hy as [->|Hy].
    + assert (Hx : x ∈ x :: l) by (apply elem_of_cons; left; reflexivity).
      specialize (IH x Hx). lra.
    + apply elem_of_cons in Hy as [->|Hy]; [lra|].
      assert (Hx : y ∈ x :: l) by (apply elem_of_cons; right; exact Hy).
      specialize (IH y Hx). lra.
Qed.

(** A sum weighted by nonnegative weights lies between the bounds
    of its terms, scaled by the total weight. *)
Lemma weighted_sum_bounds (xs ws : list R) lo hi :
  length xs = length ws ->
  Forall (fun x => lo <= x <= hi) xs ->
  Forall (fun w => 0 < w) ws ->
  lo * Rsum ws <= Rsum (zip_with Rmult xs ws) <= hi * Rsum ws.
Proof.
  intros Hlen Hx. revert ws Hlen.
  induction Hx as [|x xs Hx _ IH]; intros [|w ws] Hlen Hw;
    simpl in *; try discriminate; try lra.
  inversion Hw; subst.
  specialize (IH ws ltac:(lia) ltac:(assumption)). nra.
Qed.

Lemma div_between (lo hi S W : R) :
  0 < W -> lo * W <= S <= hi * W -> lo <= S / W <= hi.
Proof.
  intros HW [Hlo Hhi].
  pose proof (Rinv_0_lt_compat W HW) as Hi.
  assert (E : W * / W = 1) by (apply Rinv_r; lra).
  unfold Rdiv. split.
  - replace lo with (lo * W * / W) by (rewrite Rmult_assoc, E; ring).
    apply Rmult_le_compat_r; lra.
  - replace hi with (hi * W * / W) by (rewrite Rmult_assoc, E; ring).
    apply Rmult_le_compat_r; lra.
Qed.

Lemma weighted_mean_bounds (xs ws : list R) :
  xs <> [] -> length xs = length ws -> Forall (fun w => 0 < w) ws ->
  Rlist_min xs <= weighted_mean ws xs <= Rlist_max xs.
Proof.
  intros Hne Hlen Hw.
  assert (Hpos : 0 < Rsum ws).
  { apply Rsum_pos; [|exact Hw]. destruct xs, ws; simpl in *; congruence. }
  assert (Hb : Forall (fun x => Rlist_min xs <= x <= Rlist_max xs) xs).
  { apply Forall_forall. intros x Hx.
    split; [apply Rlist_min_le | apply Rlist_max_ge]; exact Hx. }
  destruct (weighted_sum_bounds xs ws _ _ Hlen Hb Hw) as [Hlo Hhi].
  unfold weighted_mean. apply div_between; [exact Hpos | split; assumption].
Qed.

Lemma top_nonempty results numServers :
  (3 <= length results)%nat -> (1 <= numServers)%Z ->
  top numServers results <> [].
Proof.
  intros Hlen Hn. unfold top, clamp.
  destruct results as [|r results]; [simpl in Hlen; lia|].
  destruct (Z.to_nat (Z.min numServers (Z.of_nat (length (r :: results)))))
    eqn:E; [simpl length in E; lia | discriminate].
Qed.

Lemma trilaterate_weight_antitone d d' :
  -1 < d' < d -> trilaterate_weight d < trilaterate_weight d'.
Proof.
  intros H. unfold trilaterate_weight.
  unfold Rdiv. apply Rmult_lt_compat_l; [lra|].
  apply Rinv_lt_contravar; [nra | lra].
Qed.

Lemma multilateral_weight_antitone delta delta' :
  (0 <= delta')%Z ->
  (Duration.Milliseconds delta' <= Duration.Milliseconds delta)%Z ->
  multilateral_weight delta <= multilateral_weight delta'.
Proof.
  intros H0 Hle. rewrite !multilateral_weight_eq.
  apply Milliseconds_nonneg, IZR_le in H0. apply IZR_le in Hle.
  unfold Rdiv. apply Rmult_le_compat_l; [lra|].
  apply Rinv_le_contravar; lra.
Qed.

Lemma multilateral_weight_strict delta delta' :
  (0 <= delta')%Z ->
  (Duration.Milliseconds delta' < Duration.Milliseconds delta)%Z ->
  multilateral_weight delta < multilateral_weight delta'.
Proof.
  intros H0 Hlt. rewrite !multilateral_weight_eq.
  apply Milliseconds_nonneg, IZR_le in H0. apply IZR_lt in Hlt.
  unfold Rdiv. apply Rmult_lt_compat_l; [lra|].
  apply Rinv_lt_contravar; [nra | lra].
Qed.

Lemma influence_increasing w w' others :
  0 < others -> 0 < w < w' -> influence w others < influence w' others.
Proof.
  intros Ho Hw. unfold influence.
  assert (E : w' / (w' + others) - w / (w + others)
              = others * (w' - w) / ((w' + others) * (w + others)))
    by (field; lra).
  assert (0 < others * (w' - w) / ((w' + others) * (w + others))).
  { apply Rdiv_lt_0_compat; nra. }
  lra.
Qed.

End Weights.

(** C10, as the code has it.  For a list of at least three results with
    nonnegative deltas and a requested count of at least one, every
    weight the loop computes is strictly positive, the total weight at
    loop exit is strictly positive, and the returned latitude
    (longitude) lies between the smallest and the largest latitude
    (longitude) of the first [min(N, length)] entries. *)
Theorem multilateration_within_bounds (results : list Result) (numServers : Z) :
  (3 <= length results)%nat ->
  1 <= numServers ->
  Forall (fun r => 0 <= Delta r) results ->
  let entries := top numServers results in
  exists t loc,
    multilateral_totals results numServers = Some t /\
    multilateralTriangulation results numServers = Some loc /\
    Forall (fun r => 0 < multilateral_weight (Delta r))%R entries /\
    (0 < totalWeight t)%R /\
    (Rlist_min (List.map (fun r => Lat (Srv r)) entries) <= LocLat loc
     <= Rlist_max (List.map (fun r => Lat (Srv r)) entries))%R /\
    (Rlist_min (List.map (fun r => Lon (Srv r)) entries) <= LocLon loc
     <= Rlist_max (List.map (fun r => Lon (Srv r)) entries))%R.
Proof.
  intros Hlen Hn Hdelta entries.
  assert (Hsub : Forall (fun r => 0 <= Delta r) entries).
  { unfold entries, top. apply Forall_take, Hdelta. }
  assert (Hne : entries <> []) by (apply top_nonempty; assumption).
  pose proof (weights_of_pos entries Hsub) as Hw.
  destruct (fold_body_sums entries (mkTotals 0 0 0)) as (_ & _ & HW).
  simpl in HW. rewrite Rplus_0_l in HW.
  exists (foldl multilateral_body (mkTotals 0 0 0) entries),
         (multilateration_spec results numServers).
  split; [apply multilateral_totals_fold|].
  split; [apply multilateralTriangulation_spec, Hlen|].
  split.
  { eapply Forall_impl; [exact Hsub|]. intros r Hr.
    apply multilateral_weight_pos, Hr. }
  split.
  { rewrite HW. apply Rsum_pos; [|exact Hw].
    unfold weights_of. destruct entries; [congruence | discriminate]. }
  unfold multilateration_spec. fold entries. simpl.
  split; apply weighted_mean_bounds; try exact Hw;
    try (destruct entries; [congruence | discriminate]);
    unfold weights_of; rewrite !length_map; reflexivity.
Qed.

Lemma nonneg_sample :
  Forall (fun r => 0 <= Delta r) [near_berlin; tie_paris; far_london].
Proof. repeat constructor; simpl; lia. Qed.

Lemma multilateration_within_bounds_witness :
  (3 <= length [near_berlin; tie_paris; far_london])%nat /\
  1 <= 10 /\
  Forall (fun r => 0 <= Delta r) [near_berlin; tie_paris; far_london] /\
  exists t loc,
    multilateral_totals [near_berlin; tie_paris; far_london] 10 = Some t /\
    multilateralTriangulation [near_berlin; tie_paris; far_london] 10
      = Some loc /\
    (0 < totalWeight t)%R.
Proof.
  assert (H3 : (3 <= length [near_berlin; tie_paris; far_london])%nat)
    by (simpl; lia).
  assert (H1 : 1 <= 10) by lia.
  split; [exact H3|]. split; [exact H1|]. split; [exact nonneg_sample|].
  destruct (multilateration_within_bounds _ 10 H3 H1 nonneg_sample)
    as (t & loc & Ht & Hloc & _ & Hpos & _).
  exists t, loc. auto.
Defined.

(** C10 as stated fails when the requested count is zero: the loop body
    never runs and the total weight stays at zero. *)
Lemma multilateration_zero_count_counterexample :
  (3 <= length [near_berlin; tie_paris; far_london])%nat /\
  Forall (fun r => 0 <= Delta r) [near_berlin; tie_paris; far_london] /\
  multilateral_totals [near_berlin; tie_paris; far_london] 0
    = Some (mkTotals 0 0 0) /\
  ~ (0 < totalWeight (mkTotals 0 0 0))%R.
Proof.
  split; [simpl; lia|]. split; [exact nonneg_sample|].
  split; [reflexivity|]. simpl. lra.
Qed.

(** C7, as the code has it.  In [trilaterate] a strictly smaller
    distance above [-1] (so any nonnegative one) gives a strictly
    larger weight.  In [multilateralTriangulation] the weight depends
    on the delta through its whole number of milliseconds: a smaller
    nonnegative delta never gives a smaller weight, and gives a
    strictly larger one when the millisecond count drops.  A strictly
    larger weight against the same other weights is a strictly larger
    share of the total. *)
Theorem weight_monotonicity :
  (forall d d', -1 < d' < d ->
     trilaterate_weight d < trilaterate_weight d')%R /\
  (forall delta delta', 0 <= delta' <= delta ->
     (multilateral_weight delta <= multilateral_weight delta')%R) /\
  (forall delta delta', 0 <= delta' ->
     Duration.Milliseconds delta' < Duration.Milliseconds delta ->
     (multilateral_weight delta < multilateral_weight delta')%R) /\
  (forall w w' others, 0 < others -> 0 < w < w' ->
     influence w others < influence w' others)%R.
Proof.
  split; [exact trilaterate_weight_antitone|].
  split.
  - intros delta delta' H. apply multilateral_weight_antitone; [lia|].
    apply Milliseconds_mono, H.
  - split; [exact multilateral_weight_strict | exact influence_increasing].
Qed.

Lemma weight_monotonicity_witness :
  (-1 < 500 < 1000)%R /\
  (trilaterate_weight 1000 < trilaterate_weight 500)%R /\
  0 <= 10000000 /\
  Duration.Milliseconds 10000000 < Duration.Milliseconds 40000000 /\
  (multilateral_weight 40000000 < multilateral_weight 10000000)%R.
Proof.
  assert (H : (-1 < 500 < 1000)%R) by lra.
  assert (H0 : 0 <= 10000000) by lia.
  assert (Hms : Duration.Milliseconds 10000000 < Duration.Milliseconds 40000000)
    by reflexivity.
  destruct weight_monotonicity as (Ht & _ & Hm & _).
  split; [exact H|]. split; [exact (Ht 1000%R 500%R H)|].
  split; [exact H0|]. split; [exact Hms|].
  exact (Hm 40000000 10000000 H0 Hms).
Defined.

(** C7 as stated fails for multilateration: lowering a delta from
    10.9 ms to 10.1 ms leaves the weight at [1/11]. *)
Lemma weight_monotonicity_counterexample :
  10100000 < 10900000 /\
  multilateral_weight 10100000 = multilateral_weight 10900000 /\
  ~ (multilateral_weight 10900000 < multilateral_weight 10100000)%R.
Proof.
  split; [lia|].
  assert (E : multilateral_weight 10100000 = multilateral_weight 10900000)
    by reflexivity.
  split; [exact E|]. rewrite E. apply Rlt_irrefl.
Qed.

(** ** Trilateration *)

Section Trilateration.
Local Open Scope R_scope.

Lemma trilaterate_weight_eq d : trilaterate_weight d = 1 / (d + 1).
Proof. unfold trilaterate_weight. f_equal; lra. Qed.

Lemma trilaterate_refines s1 s2 s3 d1 d2 d3 :
  trilaterate s1 s2 s3 d1 d2 d3 = trilateration_spec s1 s2 s3 d1 d2 d3.
Proof.
  unfold trilaterate, trilateration_spec.
  destruct (geoToCartesian (Lat s1) (Lon s1)) as [[x1 y1] z1].
  destruct (geoToCartesian (Lat s2) (Lon s2)) as [[x2 y2] z2].
  destruct (geoToCartesian (Lat s3) (Lon s3)) as [[x3 y3] z3].
  rewrite !trilaterate_weight_eq.
  unfold centroid3, onto_sphere, vscale, vadd, vnorm.
  set (w1 := 1 / (d1 + 1)). set (w2 := 1 / (d2 + 1)). set (w3 := 1 / (d3 + 1)).
  set (cx := / (w1 + w2 + w3) * (w1 * x1 + w2 * x2 + w3 * x3)).
  set (cy := / (w1 + w2 + w3) * (w1 * y1 + w2 * y2 + w3 * y3)).
  set (cz := / (w1 + w2 + w3) * (w1 * z1 + w2 * z2 + w3 * z3)).
  replace ((x1 * w1 + x2 * w2 + x3 * w3) / (w1 + w2 + w3)) with cx
    by (unfold cx, Rdiv; ring).
  replace ((y1 * w1 + y2 * w2 + y3 * w3) / (w1 + w2 + w3)) with cy
    by (unfold cy, Rdiv; ring).
  replace ((z1 * w1 + z2 * w2 + z3 * w3) / (w1 + w2 + w3)) with cz
    by (unfold cz, Rdiv; ring).
  set (n := sqrt (cx * cx + cy * cy + cz * cz)).
  replace (cx / n * earthRadius) with (earthRadius / n * cx) by (unfold Rdiv; ring).
  replace (cy / n * earthRadius) with (earthRadius / n * cy) by (unfold Rdiv; ring).
  replace (cz / n * earthRadius) with (earthRadius / n * cz) by (unfold Rdiv; ring).
  reflexivity.
Qed.

Lemma geo_on_sphere lat lon : vnorm (geoToCartesian lat lon) = earthRadius.
Proof.
  unfold geoToCartesian, vnorm. cbv zeta.
  set (a := lat * PI / 180). set (b := lon * PI / 180).
  replace (earthRadius * cos a * cos b * (earthRadius * cos a * cos b) +
   earthRadius * cos a * sin b * (earthRadius * cos a * sin b) +
   earthRadius * sin a * (earthRadius * sin a))
   with (earthRadius² * ((sin a)² + (cos a)² * ((sin b)² + (cos b)²))) by (unfold Rsqr; ring).
  rewrite !sin2_cos2. rewrite Rmult_1_r, sin2_cos2, Rmult_1_r.
  apply sqrt_Rsqr. unfold earthRadius. lra.
Qed.

Lemma vnorm_nonneg v : 0 <= vnorm v.
Proof. destruct v as [[x y] z]. apply sqrt_pos. Qed.

Lemma onto_sphere_norm v : vnorm v <> 0 -> vnorm (onto_sphere v) = earthRadius.
Proof.
  intros Hn. unfold onto_sphere.
  pose proof (vnorm_nonneg v) as Hpos.
  destruct v as [[x y] z]. unfold vscale.
  set (n := vnorm (x, y, z)) in *.
  assert (Hsq : x * x + y * y + z * z = n * n).
  { unfold n, vnorm. rewrite sqrt_sqrt; [reflexivity|]. nra. }
  unfold vnorm at 1.
  replace (earthRadius / n * x * (earthRadius / n * x) + earthRadius / n * y * (earthRadius / n * y) + earthRadius / n * z * (earthRadius / n * z))
    with ((earthRadius / n)² * (x * x + y * y + z * z)) by (unfold Rsqr; ring).
  rewrite Hsq.
  replace ((earthRadius / n)² * (n * n)) with (earthRadius²) by (unfold Rsqr; field; exact Hn).
  apply sqrt_Rsqr. unfold earthRadius. lra.
Qed.

Lemma Atan2_zero_nonneg x : 0 <= x -> Atan2 0 x = 0.
Proof.
  intros Hx. unfold Atan2.
  destruct (Req_dec_T 0 0) as [_|Hne]; [|contradiction].
  destruct (Rle_dec 0 x); [reflexivity | contradiction].
Qed.

Lemma geo_0_0 : geoToCartesian 0 0 = (earthRadius, 0, 0).
Proof.
  unfold geoToCartesian. cbv zeta.
  replace (0 * PI / 180) with 0 by lra.
  rewrite cos_0, sin_0. repeat f_equal; ring.
Qed.

Lemma geo_0_90 : geoToCartesian 0 90 = (0, earthRadius, 0).
Proof.
  unfold geoToCartesian. cbv zeta.
  replace (0 * PI / 180) with 0 by lra.
  replace (90 * PI / 180) with (PI / 2) by lra.
  rewrite cos_0, sin_0, cos_PI2, sin_PI2. repeat f_equal; ring.
Qed.

Lemma geo_0_m90 : geoToCartesian 0 (-90) = (0, - earthRadius, 0).
Proof.
  unfold geoToCartesian. cbv zeta.
  replace (0 * PI / 180) with 0 by lra.
  replace (-90 * PI / 180) with (- (PI / 2)) by lra.
  rewrite cos_0, sin_0, cos_neg, sin_neg, cos_PI2, sin_PI2. repeat f_equal; ring.
Qed.

Lemma equator_scenario :
  trilaterate equator_0 equator_east equator_west 1000 1000 1000
  = mkLocation 0 0.
Proof.
  unfold trilaterate. simpl Lat. simpl Lon.
  rewrite geo_0_0, geo_0_90, geo_0_m90.
  rewrite trilaterate_weight_eq.
  set (w := 1 / (1000 + 1)).
  assert (Hw : 0 < w) by (unfold w; apply Rdiv_lt_0_compat; lra).
  assert (HR : 0 < earthRadius) by (unfold earthRadius; lra).
  replace ((earthRadius * w + 0 * w + 0 * w) / (w + w + w)) with (earthRadius / 3)
    by (field; lra).
  replace ((0 * w + earthRadius * w + - earthRadius * w) / (w + w + w)) with 0
    by (field; lra).
  replace ((0 * w + 0 * w + 0 * w) / (w + w + w)) with 0 by (field; lra).
  replace (earthRadius / 3 * (earthRadius / 3) + 0 * 0 + 0 * 0)
    with ((earthRadius / 3)²) by (unfold Rsqr; ring).
  rewrite sqrt_Rsqr by lra.
  replace (earthRadius / 3 / (earthRadius / 3) * earthRadius) with earthRadius
    by (field; lra).
  replace (0 / (earthRadius / 3) * earthRadius) with 0 by (field; lra).
  unfold cartesianToGeo.
  replace (earthRadius * earthRadius + 0 * 0) with (earthRadius²)
    by (unfold Rsqr; ring).
  rewrite sqrt_Rsqr by lra.
  rewrite Atan2_zero_nonneg by lra.
  f_equal; unfold Rdiv; ring.
Qed.

End Trilateration.

(** ** Statistics *)

Lemma occurrences_cons c r l :
  occurrences c (r :: l)
  = (if String.eqb (Country (Srv r)) c then 1 else 0) + occurrences c l.
Proof.
  unfold occurrences. simpl.
  destruct (String.eqb (Country (Srv r)) c); simpl length; lia.
Qed.

Lemma occurrences_nonneg c l : 0 <= occurrences c l.
Proof. unfold occurrences. lia. Qed.

Lemma bump_lookup m r c :
  bump m r !! c
  = if String.eqb (Country (Srv r)) c
    then Some (default 0 (m !! c) + 1) else m !! c.
Proof.
  unfold bump. destruct (String.eqb_spec (Country (Srv r)) c) as [->|Hne].
  - apply lookup_insert_eq.
  - apply lookup_insert_ne, Hne.
Qed.

Lemma foldl_bump_lookup l m c :
  foldl bump m l !! c
  = if occurrences c l =? 0 then m !! c
    else Some (default 0 (m !! c) + occurrences c l).
Proof.
  revert m. induction l as [|r l IH]; intros m.
  - reflexivity.
  - simpl foldl. rewrite IH, bump_lookup, occurrences_cons.
    pose proof (occurrences_nonneg c l) as Hn.
    destruct (String.eqb (Country (Srv r)) c);
      destruct (Z.eqb_spec (occurrences c l) 0) as [E|E].
    + rewrite E. simpl. f_equal.
    + destruct (Z.eqb_spec (1 + occurrences c l) 0); [lia|].
      simpl. f_equal. lia.
    + rewrite E. reflexivity.
    + destruct (Z.eqb_spec (0 + occurrences c l) 0); [lia|].
      f_equal.
Qed.

Lemma countryStats_lookup results c n :
  countryStats results !! c = Some n <-> n = occurrences c results /\ 0 < n.
Proof.
  unfold countryStats. rewrite foldl_bump_lookup, lookup_empty.
  pose proof (occurrences_nonneg c results).
  destruct (Z.eqb_spec (occurrences c results) 0); simpl.
  - split; [discriminate | lia].
  - split; [intros [= <-]; lia | intros [-> _]; f_equal; lia].
Qed.

Lemma totalRTT_exact l acc :
  Forall (fun r => 0 <= AvgRTT (Srv r)) l ->
  0 <= acc -> acc + sumRTT l < 2 ^ 63 ->
  foldl (fun acc r => Duration.add acc (AvgRTT (Srv r))) acc l = acc + sumRTT l.
Proof.
  intros H. revert acc. induction H as [|r l Hr Hl IH]; intros acc Hacc Hlt; simpl.
  - lia.
  - assert (0 <= sumRTT l).
    { clear -Hl. induction Hl; simpl; lia. }
    simpl in Hlt.
    unfold Duration.add at 2. rewrite wrap_id by (unfold Duration.in_range; lia).
    rewrite IH by lia. lia.
Qed.

Lemma sumRTT_nonneg l :
  Forall (fun r => 0 <= AvgRTT (Srv r)) l -> 0 <= sumRTT l.
Proof. induction 1; simpl; lia. Qed.

Lemma sorted_by_count_desc (l : list countryCount) :
  sorted_by less_count l -> StronglySorted (fun a b => b.2 <= a.2) l.
Proof.
  unfold sorted_by. induction 1 as [|a l Hs IH Ha]; constructor; [exact IH|].
  eapply Forall_impl; [exact Ha|]. intros b Hb. unfold less_count in Hb. simpl in Hb. lia.
Qed.


Lemma displayStatistics_runs results :
  results <> [] -> exists st, displayStatistics results (Some st).
Proof.
  intros Hne. eexists.
  apply (stats_printed results (map_to_list (countryStats results))
           (insertionSort less_count (map_to_list (countryStats results)))).
  - destruct results; [congruence | discriminate].
  - reflexivity.
  - apply insertionSort_meets_contract; unfold less_count; intros; lia.
Qed.

(** C9, as the code has it.  On a non-empty list the summary step
    counts the measurements per country label, arranges the counts in
    descending order (rows with equal counts in no particular order),
    prints the first ten rows, and prints the mean of the per-server
    latencies rounded down to a whole nanosecond, together with the
    number of servers.  On the empty list it prints nothing.  The
    latencies are nonnegative and their sum fits a [Duration]. *)
Theorem statistics_summary (results : list Result) :
  results <> [] ->
  Forall (fun r => 0 <= AvgRTT (Srv r)) results ->
  sumRTT results < 2 ^ 63 ->
  (exists st, displayStatistics results (Some st)) /\
  (forall out, displayStatistics results out ->
     exists st sorted,
       out = Some st /\
       shown st = take 10 sorted /\
       sorted ≡ₚ map_to_list (countryStats results) /\
       StronglySorted (fun a b : countryCount => b.2 <= a.2) sorted /\
       (forall c n, (c, n) ∈ sorted <-> n = occurrences c results /\ 0 < n) /\
       total st = Z.of_nat (length results) /\
       avgRTT st = Z.quot (sumRTT results) (Z.of_nat (length results)) /\
       Z.of_nat (length results) * avgRTT st <= sumRTT results
         < Z.of_nat (length results) * (avgRTT st + 1)) /\
  (forall out, displayStatistics [] out <-> out = None).
Proof.
  intros Hne Hrtt Hsum.
  split; [apply displayStatistics_runs, Hne|]. split.
  - intros out Hout.
    destruct Hout as [Hz|countries sorted Hnz Hperm [Hp Hs]].
    { destruct results; [congruence | discriminate]. }
    exists (mkStats (take 10 sorted)
              (Z.quot (totalRTT results) (Z.of_nat (length results)))
              (Z.of_nat (length results))), sorted.
    assert (Htot : totalRTT results = sumRTT results).
    { unfold totalRTT. rewrite totalRTT_exact; [lia | exact Hrtt | lia | lia]. }
    pose proof (sumRTT_nonneg results Hrtt) as Hnn.
    assert (Hlen : 0 < Z.of_nat (length results)) by lia.
    simpl. rewrite Htot.
    split; [reflexivity|]. split; [reflexivity|].
    split; [rewrite <- Hp; exact Hperm|].
    split; [apply sorted_by_count_desc, Hs|].
    split.
    { intros c n. rewrite <- Hp, Hperm.
      rewrite elem_of_map_to_list. apply countryStats_lookup. }
    split; [reflexivity|]. split; [reflexivity|].
    rewrite Z.quot_div_nonneg by lia.
    pose proof (Z.mul_div_le (sumRTT results) (Z.of_nat (length results)) Hlen).
    pose proof (Z.mul_succ_div_gt (sumRTT results)
                  (Z.of_nat (length results)) Hlen).
    lia.
  - intros out. split.
    + intros H. inversion H as [Hz|countries sorted Hnz]; [reflexivity|].
      simpl in Hnz. congruence.
    + intros ->. constructor. reflexivity.
Qed.

Lemma statistics_summary_witness :
  [tie_paris; near_berlin] <> [] /\
  Forall (fun r => 0 <= AvgRTT (Srv r)) [tie_paris; near_berlin] /\
  sumRTT [tie_paris; near_berlin] < 2 ^ 63 /\
  exists st, displayStatistics [tie_paris; near_berlin] (Some st).
Proof.
  assert (H1 : [tie_paris; near_berlin] <> []) by discriminate.
  assert (H2 : Forall (fun r => 0 <= AvgRTT (Srv r)) [tie_paris; near_berlin])
    by (repeat constructor; simpl; lia).
  assert (H3 : sumRTT [tie_paris; near_berlin] < 2 ^ 63) by (simpl; lia).
  split; [exact H1|]. split; [exact H2|]. split; [exact H3|].
  exact (proj1 (statistics_summary _ H1 H2 H3)).
Defined.

(** C9 as stated fails on the order of ties: France is met before
    Germany, both once, and the table may list Germany first. *)
Lemma statistics_tie_order_counterexample :
  (exists st,
     displayStatistics [tie_paris; near_berlin] (Some st) /\
     shown st = [("Germany", 1); ("France", 1)]) /\
  ~ ties_in_encounter_order [tie_paris; near_berlin]
      [("Germany", 1); ("France", 1)].
Proof.
  split.
  - eexists. split.
    + apply (stats_printed [tie_paris; near_berlin]
               [("Germany", 1); ("France", 1)] [("Germany", 1); ("France", 1)]).
      * discriminate.
      * vm_compute. reflexivity.
      * split; [reflexivity|]. repeat constructor.
    + reflexivity.
  - intros H. specialize (H 1). destruct H as [k Hk].
    vm_compute in Hk. discriminate Hk.
Qed.

(** ** Geographic and Cartesian coordinates *)

Section RoundTrip.
Local Open Scope R_scope.

Lemma sin_pos_open b : 0 < b < PI -> 0 < sin b.
Proof. intros [H1 H2]. apply sin_gt_0; assumption. Qed.

Lemma sin_neg_open b : - PI < b < 0 -> sin b < 0.
Proof.
  intros [H1 H2]. assert (0 < sin (- b)) by (apply sin_gt_0; lra).
  rewrite sin_neg in H. lra.
Qed.

Lemma cos_pos_open b : - (PI / 2) < b < PI / 2 -> 0 < cos b.
Proof. intros [H1 H2]. apply cos_gt_0; assumption. Qed.

Lemma cos_neg_upper b : PI / 2 < b <= PI -> cos b < 0.
Proof. intros [H1 H2]. pose proof PI_RGT_0. apply cos_lt_0; lra. Qed.

Lemma cos_neg_lower b : - PI < b < - (PI / 2) -> cos b < 0.
Proof.
  intros [H1 H2]. rewrite <- cos_neg. pose proof PI_RGT_0.
  apply cos_lt_0; lra.
Qed.

Lemma tan_scaled k b : k <> 0 -> cos b <> 0 -> k * sin b / (k * cos b) = tan b.
Proof. intros Hk Hc. unfold tan. field. split; assumption. Qed.

Lemma tan_shift_minus b : cos b <> 0 -> tan (b - PI) = tan b.
Proof.
  intros Hc. unfold tan.
  rewrite sin_minus, cos_minus, sin_PI, cos_PI. field. exact Hc.
Qed.

Lemma tan_shift_plus b : cos b <> 0 -> tan (b + PI) = tan b.
Proof.
  intros Hc. unfold tan. rewrite neg_sin, neg_cos. field. exact Hc.
Qed.

(** [Atan2] recovers the angle of a point given in polar form. *)
Lemma Atan2_polar k b :
  0 < k -> - PI < b <= PI -> Atan2 (k * sin b) (k * cos b) = b.
Proof.
  intros Hk [Hlo Hhi]. pose proof PI_RGT_0 as HPI. unfold Atan2.
  destruct (Req_dec_T (k * sin b) 0) as [Hy|Hy].
  - (* on the x axis *)
    assert (Hs : sin b = 0) by nra.
    assert (Hb : b = 0 \/ b = PI).
    { destruct (Rtotal_order b 0) as [H|[H|H]]; [|auto|].
      - pose proof (sin_neg_open b (conj Hlo H)). lra.
      - destruct (Req_dec b PI) as [E|E]; [auto|].
        pose proof (sin_pos_open b). lra. }
    destruct Hb as [->| ->].
    + rewrite cos_0. destruct (Rle_dec 0 (k * 1)); [reflexivity | lra].
    + rewrite cos_PI. destruct (Rle_dec 0 (k * -1)); [lra | reflexivity].
  - assert (Hs : sin b <> 0) by (intros E; apply Hy; rewrite E; ring).
    destruct (Req_dec_T (k * cos b) 0) as [Hx|Hx].
    + (* on the y axis *)
      assert (Hc : cos b = 0) by nra.
      destruct (Rlt_dec 0 (k * sin b)) as [Hpos|Hneg].
      * assert (0 < sin b) by nra.
        assert (0 < b).
        { destruct (Rtotal_order b 0) as [H'|[H'|H']]; [|subst; rewrite sin_0 in *; lra|lra].
          pose proof (sin_neg_open b (conj Hlo H')). lra. }
        destruct (Rtotal_order b (PI / 2)) as [H'|[H'|H']]; [|lra|].
        -- pose proof (cos_pos_open b). lra.
        -- pose proof (cos_neg_upper b). lra.
      * assert (sin b < 0) by nra.
        assert (b < 0).
        { destruct (Rtotal_order b 0) as [H'|[H'|H']]; [lra|subst; rewrite sin_0 in *; lra|].
          destruct (Req_dec b PI) as [E|E]; [subst; rewrite sin_PI in *; lra|].
          pose proof (sin_pos_open b). lra. }
        destruct (Rtotal_order b (- (PI / 2))) as [H'|[H'|H']]; [|lra|].
        -- pose proof (cos_neg_lower b). lra.
        -- pose proof (cos_pos_open b). lra.
    + assert (Hc : cos b <> 0) by (intros E; apply Hx; rewrite E; ring).
      rewrite tan_scaled by (assumption || lra).
      cbv zeta.
      destruct (Rlt_dec (k * cos b) 0) as [Hxneg|Hxpos].
      * assert (Hcn : cos b < 0) by nra.
        destruct (Rtotal_order b 0) as [H'|[H'|H']].
        -- (* third quadrant *)
           assert (b < - (PI / 2)).
           { destruct (Rlt_dec b (- (PI / 2))); [assumption|].
             destruct (Req_dec b (- (PI / 2))) as [E|E].
             - rewrite E, cos_neg, cos_PI2 in Hcn. lra.
             - pose proof (cos_pos_open b). lra. }
           rewrite <- (tan_shift_plus b Hc).
           rewrite atan_tan by lra.
           destruct (Rle_dec (b + PI) 0); lra.
        -- subst. rewrite cos_0 in Hcn. lra.
        -- (* second quadrant *)
           assert (PI / 2 < b).
           { destruct (Rlt_dec (PI / 2) b); [assumption|].
             destruct (Req_dec b (PI / 2)) as [E|E].
             - rewrite E, cos_PI2 in Hcn. lra.
             - pose proof (cos_pos_open b). lra. }
           assert (b <> PI) by (intros E; rewrite E, sin_PI in Hs; lra).
           rewrite <- (tan_shift_minus b Hc).
           rewrite atan_tan by lra.
           destruct (Rle_dec (b - PI) 0); lra.
      * assert (Hcp : 0 < cos b) by nra.
        apply atan_tan.
        split.
        -- destruct (Rlt_dec (- (PI / 2)) b); [assumption|].
           destruct (Req_dec b (- (PI / 2))) as [E|E].
           ++ rewrite E, cos_neg, cos_PI2 in Hcp. lra.
           ++ pose proof (cos_neg_lower b). lra.
        -- destruct (Rlt_dec b (PI / 2)); [assumption|].
           destruct (Req_dec b (PI / 2)) as [E|E].
           ++ rewrite E, cos_PI2 in Hcp. lra.
           ++ pose proof (cos_neg_upper b). lra.
Qed.

(** In exact arithmetic [cartesianToGeo] undoes [geoToCartesian] away
    from the poles and from longitude -180.  On those boundaries the
    exact functions lose the longitude ([cos] of a right angle is
    exactly zero), whereas in [float64] it is the rounding of
    [math.Cos] and [math.Sin] that decides; the tolerance of the
    round-trip property is a statement about that rounding and is not
    expressed here. *)
Lemma geo_roundtrip_interior lat lon :
  -90 < lat < 90 -> -180 < lon <= 180 ->
  let '(x, y, z) := geoToCartesian lat lon in
  cartesianToGeo x y z = (lat, lon).
Proof.
  intros Hlat Hlon. pose proof PI_RGT_0 as HPI.
  unfold geoToCartesian, cartesianToGeo. cbv zeta.
  set (a := lat * PI / 180). set (b := lon * PI / 180).
  assert (Ha : - (PI / 2) < a < PI / 2) by (unfold a; split; nra).
  assert (Hb : - PI < b <= PI) by (unfold b; split; nra).
  assert (HR : 0 < earthRadius) by (unfold earthRadius; lra).
  pose proof (cos_pos_open a Ha) as Hca.
  set (k := earthRadius * cos a).
  assert (Hk : 0 < k) by (unfold k; nra).
  assert (Hhyp : sqrt (k * cos b * (k * cos b) + k * sin b * (k * sin b)) = k).
  { replace (k * cos b * (k * cos b) + k * sin b * (k * sin b))
      with (k² * ((sin b)² + (cos b)²)) by (unfold Rsqr; ring).
    rewrite sin2_cos2, Rmult_1_r. apply sqrt_Rsqr. lra. }
  rewrite Hhyp, (Atan2_polar k b Hk Hb).
  unfold k. rewrite (Atan2_polar earthRadius a HR) by lra.
  unfold a, b. f_equal; field; lra.
Qed.

End RoundTrip.

(** ** Trilateration against the words of the specification *)

Section TrilaterationWordsFacts.
Local Open Scope R_scope.

Lemma spec_GeoToCartesian_eq lat lon :
  spec_GeoToCartesian lat lon = geoToCartesian lat lon.
Proof.
  unfold spec_GeoToCartesian, geoToCartesian, unit_direction, radians, vscale,
    earthRadius.
  cbv zeta. f_equal; [f_equal|]; lra || ring.
Qed.

Lemma spec_CartesianToGeo_eq x y z :
  spec_CartesianToGeo (x, y, z) = cartesianToGeo x y z.
Proof. reflexivity. Qed.

Lemma spec_Trilaterate_eq s1 s2 s3 d1 d2 d3 :
  trilaterate s1 s2 s3 d1 d2 d3
  = spec_Trilaterate (Lat s1, Lon s1, d1) (Lat s2, Lon s2, d2) (Lat s3, Lon s3, d3).
Proof.
  rewrite trilaterate_refines.
  unfold trilateration_spec, spec_Trilaterate. cbv zeta. cbn [fst snd].
  rewrite !spec_GeoToCartesian_eq.
  set (c := centroid3 _ _ _ _ _ _).
  unfold onto_sphere.
  replace (6371 / vnorm c) with (earthRadius / vnorm c)
    by (unfold earthRadius; f_equal; lra).
  destruct (vscale (earthRadius / vnorm c) c) as [[x y] z].
  rewrite spec_CartesianToGeo_eq.
  destruct (cartesianToGeo x y z) as [lat lon]. reflexivity.
Qed.

Lemma spec_roundtrip lat lon :
  -90 < lat < 90 -> -180 < lon <= 180 ->
  spec_CartesianToGeo (spec_GeoToCartesian lat lon) = (lat, lon).
Proof.
  intros Hlat Hlon. rewrite spec_GeoToCartesian_eq.
  pose proof (geo_roundtrip_interior lat lon Hlat Hlon) as H.
  destruct (geoToCartesian lat lon) as [[x y] z].
  rewrite spec_CartesianToGeo_eq. exact H.
Qed.

End TrilaterationWordsFacts.

(** C5. [trilaterate] maps the three servers onto the sphere of radius
    6371.0, weights point [i] by [1/(d_i + 1)], forms the weighted
    centroid, rescales it to length 6371.0 and converts it back.  The
    converted points do lie on that sphere, and so does the rescaled
    centroid whenever the centroid is not the centre.  For nodes at
    (0,0), (0,90), (0,-90), each at 1000 km, every weight is [1/1001]
    and the output is [(0, 0)].  The conversions are those of the
    specification: [trilaterate] is [spec_Trilaterate], which is
    written without the program's conversions, [geoToCartesian] is the
    unit vector of the two angles scaled to 6371, [cartesianToGeo]
    takes [atan2(z, hypot(x,y))] and [atan2(y,x)] in degrees, and (in
    exact arithmetic, away from the poles and from longitude -180) the
    way back undoes the way there. *)
Theorem trilaterate_weighted_centroid :
  (forall s1 s2 s3 d1 d2 d3,
     trilaterate s1 s2 s3 d1 d2 d3 = trilateration_spec s1 s2 s3 d1 d2 d3) /\
  (forall lat lon, vnorm (geoToCartesian lat lon) = earthRadius) /\
  (forall v, vnorm v <> 0%R -> vnorm (onto_sphere v) = earthRadius) /\
  earthRadius = 6371%R /\
  trilaterate_weight 1000 = (1 / 1001)%R /\
  trilaterate equator_0 equator_east equator_west 1000 1000 1000
  = mkLocation 0 0 /\
  (forall s1 s2 s3 d1 d2 d3,
     trilaterate s1 s2 s3 d1 d2 d3
     = spec_Trilaterate (Lat s1, Lon s1, d1) (Lat s2, Lon s2, d2)
                        (Lat s3, Lon s3, d3)) /\
  (forall lat lon, geoToCartesian lat lon = spec_GeoToCartesian lat lon) /\
  (forall x y z, cartesianToGeo x y z = spec_CartesianToGeo (x, y, z)) /\
  (forall lat lon, (-90 < lat < 90)%R -> (-180 < lon <= 180)%R ->
     spec_CartesianToGeo (spec_GeoToCartesian lat lon) = (lat, lon)).
Proof.
  split; [exact trilaterate_refines|].
  split; [exact geo_on_sphere|].
  split; [exact onto_sphere_norm|].
  split; [unfold earthRadius; lra|].
  split; [rewrite trilaterate_weight_eq; f_equal; lra|].
  split; [exact equator_scenario|].
  split; [exact spec_Trilaterate_eq|].
  split; [intros lat lon; symmetry; apply spec_GeoToCartesian_eq|].
  split; [intros x y z; symmetry; apply spec_CartesianToGeo_eq|].
  exact spec_roundtrip.
Qed.

Lemma trilaterate_weighted_centroid_witness :
  vnorm (6371, 0, 0)%R <> 0%R /\
  vnorm (onto_sphere (6371, 0, 0)%R) = earthRadius.
Proof.
  assert (H : vnorm (6371, 0, 0)%R <> 0%R).
  { unfold vnorm.
    replace (6371 * 6371 + 0 * 0 + 0 * 0)%R with (Rsqr 6371)
      by (unfold Rsqr; ring).
    rewrite sqrt_Rsqr; lra. }
  split; [exact H|].
  exact (proj1 (proj2 (proj2 trilaterate_weighted_centroid)) _ H).
Defined.

(** ** Rounding *)

(** In binary64 the weighted mean of four equal latitudes comes out
    one step below them. *)
Lemma binary64_mean_rounding :
  exists lat lon,
    Binary64.multilateralTriangulation Binary64.same_city 10 = Some (lat, lon) /\
    PrimFloat.ltb lat Binary64.lat_tokyo = true.
Proof. eexists _, _. split; vm_compute; reflexivity. Qed.

(** In binary64 a distance of [1e-17] weighs as much as a distance of
    zero. *)
Lemma binary64_weight_tie :
  PrimFloat.ltb PrimFloat.zero Binary64.tiny = true /\
  PrimFloat.eqb (Binary64.trilaterate_weight Binary64.tiny)
                (Binary64.trilaterate_weight PrimFloat.zero) = true.
Proof. split; vm_compute; reflexivity. Qed.

(** In binary64 the estimate depends, in its last bits, on the order
    of two entries that have the same delta. *)
Lemma binary64_order_rounding :
  PrimFloat.eqb
    (Binary64Order.latitude
       (Binary64.multilateralTriangulation
          [Binary64Order.paris; Binary64Order.strasbourg; Binary64Order.karlsruhe] 3))
    (Binary64Order.latitude
       (Binary64.multilateralTriangulation
          [Binary64Order.paris; Binary64Order.karlsruhe; Binary64Order.strasbourg] 3))
  = false.
Proof. vm_compute. reflexivity. Qed.

(** * Properties of the rest of the program *)

(** ** Geometry *)

Section GeometryFacts.
Local Open Scope R_scope.

(** [Seconds] is the duration divided by [10^9], whatever its sign. *)
Lemma Seconds_exact d : Duration.Seconds d = IZR d / 1000000000.
Proof.
  unfold Duration.Seconds, Duration.Second.
  pose proof (Z.quot_rem' d 1000000000) as E.
  apply (f_equal IZR) in E. rewrite plus_IZR, mult_IZR in E.
  rewrite E. field.
Qed.

Lemma Atan2_range y x : - PI < Atan2 y x <= PI.
Proof.
  pose proof PI_RGT_0 as HPI. unfold Atan2.
  destruct (Req_dec_T y 0); [destruct (Rle_dec 0 x); lra|].
  destruct (Req_dec_T x 0); [destruct (Rlt_dec 0 y); lra|].
  cbv zeta. pose proof (atan_bound (y / x)) as [Hlo Hhi].
  destruct (Rlt_dec x 0); [|lra].
  destruct (Rle_dec (atan (y / x)) 0); lra.
Qed.

Lemma Atan2_range_right y x : 0 <= x -> - (PI / 2) <= Atan2 y x <= PI / 2.
Proof.
  intros Hx. pose proof PI_RGT_0 as HPI. unfold Atan2.
  destruct (Req_dec_T y 0); [destruct (Rle_dec 0 x); lra|].
  destruct (Req_dec_T x 0); [destruct (Rlt_dec 0 y); lra|].
  cbv zeta. pose proof (atan_bound (y / x)) as [Hlo Hhi].
  destruct (Rlt_dec x 0); lra.
Qed.

Lemma atan_nonneg t : 0 <= t -> 0 <= atan t.
Proof.
  intros [H|<-]; [|rewrite atan_0; lra].
  left. rewrite <- atan_0. apply atan_increasing, H.
Qed.

Lemma Atan2_range_quadrant y x : 0 <= y -> 0 <= x -> 0 <= Atan2 y x <= PI / 2.
Proof.
  intros Hy Hx. pose proof PI_RGT_0 as HPI. unfold Atan2.
  destruct (Req_dec_T y 0); [destruct (Rle_dec 0 x); lra|].
  destruct (Req_dec_T x 0); [destruct (Rlt_dec 0 y); lra|].
  cbv zeta. pose proof (atan_bound (y / x)) as [Hlo Hhi].
  destruct (Rlt_dec x 0); [lra|].
  split; [|lra]. apply atan_nonneg.
  apply Rmult_le_pos; [lra|]. left. apply Rinv_0_lt_compat. lra.
Qed.

Lemma Atan2_scale k y x : 0 < k -> Atan2 (k * y) (k * x) = Atan2 y x.
Proof.
  intros Hk. unfold Atan2.
  destruct (Req_dec_T (k * y) 0) as [Hy|Hy]; destruct (Req_dec_T y 0) as [Hy'|Hy'];
    try (exfalso; nra).
  - destruct (Rle_dec 0 (k * x)); destruct (Rle_dec 0 x); try reflexivity; exfalso; nra.
  - destruct (Req_dec_T (k * x) 0) as [Hx|Hx]; destruct (Req_dec_T x 0) as [Hx'|Hx'];
      try (exfalso; nra).
    + destruct (Rlt_dec 0 (k * y)); destruct (Rlt_dec 0 y); try reflexivity; exfalso; nra.
    + cbv zeta. replace (k * y / (k * x)) with (y / x) by (field; lra).
      destruct (Rlt_dec (k * x) 0); destruct (Rlt_dec x 0); try reflexivity; exfalso; nra.
Qed.

Lemma cartesianToGeo_scale k x y z :
  0 < k -> cartesianToGeo (k * x) (k * y) (k * z) = cartesianToGeo x y z.
Proof.
  intros Hk. unfold cartesianToGeo.
  replace (k * x * (k * x) + k * y * (k * y)) with (k² * (x * x + y * y))
    by (unfold Rsqr; ring).
  rewrite sqrt_mult_alt by apply Rle_0_sqr.
  rewrite sqrt_Rsqr by lra.
  rewrite !Atan2_scale by exact Hk. reflexivity.
Qed.

End GeometryFacts.

Section GeometryExtras.
Local Open Scope R_scope.

(** X1. [rttToDistance] is strictly increasing in the round-trip time,
    negative durations included, and linear: two durations [d < d']
    differ in distance by [(d' - d)] nanoseconds times
    [fiberSpeed / (2 * 10^9)]. *)
Theorem rttToDistance_increasing (d d' : Z) :
  (d < d')%Z ->
  rttToDistance d < rttToDistance d' /\
  rttToDistance d' - rttToDistance d
  = IZR (d' - d) * (fiberSpeed / 2000000000).
Proof.
  intros H. unfold rttToDistance. cbv zeta. rewrite !Seconds_exact.
  pose proof fiberSpeed_pos as Hf. apply IZR_lt in H.
  rewrite minus_IZR. split; [|field].
  apply Rmult_lt_reg_r with 2; [lra|].
  replace (IZR d / 1000000000 * fiberSpeed / 2 * 2)
    with (IZR d * (fiberSpeed / 1000000000)) by field.
  replace (IZR d' / 1000000000 * fiberSpeed / 2 * 2)
    with (IZR d' * (fiberSpeed / 1000000000)) by field.
  apply Rmult_lt_compat_r; [|exact H].
  apply Rdiv_lt_0_compat; lra.
Qed.

Lemma rttToDistance_increasing_witness :
  (0 < 1000000)%Z /\ rttToDistance 0 < rttToDistance 1000000.
Proof.
  assert (H : (0 < 1000000)%Z) by lia.
  split; [exact H|]. exact (proj1 (rttToDistance_increasing 0 1000000 H)).
Defined.

(** X2. The great-circle distance does not depend on the order of
    its two points. *)
Theorem distance_symmetric lat1 lon1 lat2 lon2 :
  distance lat1 lon1 lat2 lon2 = distance lat2 lon2 lat1 lon1.
Proof.
  unfold distance. cbv zeta.
  replace ((lat1 - lat2) * PI / 180 / 2) with (- ((lat2 - lat1) * PI / 180 / 2))
    by field.
  replace ((lon1 - lon2) * PI / 180 / 2) with (- ((lon2 - lon1) * PI / 180 / 2))
    by field.
  rewrite !sin_neg.
  set (s := sin ((lat2 - lat1) * PI / 180 / 2)).
  set (t := sin ((lon2 - lon1) * PI / 180 / 2)).
  set (c1 := cos (lat1 * PI / 180)). set (c2 := cos (lat2 * PI / 180)).
  replace (- s * - s + c2 * c1 * - t * - t) with (s * s + c1 * c2 * t * t) by ring.
  reflexivity.
Qed.


(** The haversine of a half angle in the first quadrant. *)
Lemma haversine_angle h :
  0 <= h <= PI / 2 ->
  Atan2 (sqrt (sin h * sin h)) (sqrt (1 - sin h * sin h)) = h.
Proof.
  intros [H0 H1]. pose proof PI_RGT_0 as HPI.
  assert (Hs : 0 <= sin h) by (apply sin_ge_0; lra).
  assert (Hc : 0 <= cos h) by (apply cos_ge_0; lra).
  rewrite sqrt_square by exact Hs.
  replace (1 - sin h * sin h) with (cos h * cos h).
  2:{ pose proof (sin2_cos2 h) as E. unfold Rsqr in E. lra. }
  rewrite sqrt_square by exact Hc.
  rewrite <- (Rmult_1_l (sin h)), <- (Rmult_1_l (cos h)).
  apply Atan2_polar; lra.
Qed.

(** X4. Along a meridian, and along the equator, [distance] is the
    arc length: the radius times the difference of the angles in
    radians, for differences up to 180 degrees. *)
Theorem distance_along_meridian_and_equator lat1 lat2 lon1 lon2 :
  0 <= lat2 - lat1 <= 180 ->
  0 <= lon2 - lon1 <= 180 ->
  distance lat1 lon1 lat2 lon1 = earthRadius * ((lat2 - lat1) * PI / 180) /\
  distance 0 lon1 0 lon2 = earthRadius * ((lon2 - lon1) * PI / 180).
Proof.
  intros Hlat Hlon. pose proof PI_RGT_0 as HPI. split.
  - unfold distance. cbv zeta.
    replace ((lon1 - lon1) * PI / 180 / 2) with 0 by field. rewrite sin_0.
    set (h := (lat2 - lat1) * PI / 180 / 2).
    replace (sin h * sin h + cos (lat1 * PI / 180) * cos (lat2 * PI / 180) * 0 * 0)
      with (sin h * sin h) by ring.
    rewrite haversine_angle by (unfold h; split; nra).
    unfold h. field.
  - unfold distance. cbv zeta.
    replace ((0 - 0) * PI / 180 / 2) with 0 by field.
    replace (0 * PI / 180) with 0 by field. rewrite sin_0, cos_0.
    set (h := (lon2 - lon1) * PI / 180 / 2).
    replace (0 * 0 + 1 * 1 * sin h * sin h) with (sin h * sin h) by ring.
    rewrite haversine_angle by (unfold h; split; nra).
    unfold h. field.
Qed.

Lemma distance_along_meridian_and_equator_witness :
  0 <= 90 - 0 <= 180 /\
  distance 0 0 90 0 = earthRadius * ((90 - 0) * PI / 180).
Proof.
  assert (H : 0 <= 90 - 0 <= 180) by lra.
  split; [exact H|].
  exact (proj1 (distance_along_meridian_and_equator 0 90 0 0 H
                  ltac:(lra))).
Defined.

(** X5. Whatever point it is given, [cartesianToGeo] returns a
    latitude between -90 and 90 and a longitude between -180 and
    180, bounds included. *)
Theorem cartesianToGeo_range x y z :
  -90 <= (cartesianToGeo x y z).1 <= 90 /\
  -180 <= (cartesianToGeo x y z).2 <= 180.
Proof.
  pose proof PI_RGT_0 as HPI. unfold cartesianToGeo. cbv zeta. simpl.
  pose proof (Atan2_range_right z (sqrt (x * x + y * y)) (sqrt_pos _)) as [A1 A2].
  pose proof (Atan2_range y x) as [B1 B2].
  assert (Hi : 0 < / PI) by (apply Rinv_0_lt_compat; lra).
  assert (E : PI * / PI = 1) by (apply Rinv_r; lra).
  unfold Rdiv. repeat split.
  - apply Rmult_le_reg_r with PI; [lra|]. rewrite Rmult_assoc, (Rmult_comm (/ PI)), E. lra.
  - apply Rmult_le_reg_r with PI; [lra|]. rewrite Rmult_assoc, (Rmult_comm (/ PI)), E. lra.
  - apply Rmult_le_reg_r with PI; [lra|]. rewrite Rmult_assoc, (Rmult_comm (/ PI)), E. lra.
  - apply Rmult_le_reg_r with PI; [lra|]. rewrite Rmult_assoc, (Rmult_comm (/ PI)), E. lra.
Qed.

End GeometryExtras.

Section TrilaterationExtras.
Local Open Scope R_scope.

Lemma trilaterate_weight_pos d : -1 < d -> 0 < trilaterate_weight d.
Proof.
  intros H. rewrite trilaterate_weight_eq. apply Rdiv_lt_0_compat; lra.
Qed.

Lemma vnorm_vscale k v : 0 <= k -> vnorm (vscale k v) = k * vnorm v.
Proof.
  intros Hk. destruct v as [[x y] z]. unfold vscale, vnorm.
  replace (k * x * (k * x) + k * y * (k * y) + k * z * (k * z))
    with (k² * (x * x + y * y + z * z)) by (unfold Rsqr; ring).
  rewrite sqrt_mult_alt by apply Rle_0_sqr.
  rewrite sqrt_Rsqr by exact Hk. reflexivity.
Qed.

Lemma locate_vscale k v : 0 < k -> locate (vscale k v) = locate v.
Proof.
  intros Hk. destruct v as [[x y] z]. unfold locate, vscale.
  rewrite cartesianToGeo_scale by exact Hk. reflexivity.
Qed.

Lemma trilateration_spec_locate s1 s2 s3 d1 d2 d3 :
  trilateration_spec s1 s2 s3 d1 d2 d3
  = locate (onto_sphere (vscale (/ (trilaterate_weight d1 + trilaterate_weight d2
                                    + trilaterate_weight d3))
                                (weighted_sum3 s1 s2 s3 d1 d2 d3))).
Proof.
  unfold trilateration_spec, weighted_sum3, centroid3, locate.
  rewrite !trilaterate_weight_eq. reflexivity.
Qed.

Lemma trilaterate_locates_sum s1 s2 s3 d1 d2 d3 :
  -1 < d1 -> -1 < d2 -> -1 < d3 ->
  vnorm (weighted_sum3 s1 s2 s3 d1 d2 d3) <> 0 ->
  trilaterate s1 s2 s3 d1 d2 d3 = locate (weighted_sum3 s1 s2 s3 d1 d2 d3).
Proof.
  intros H1 H2 H3 Hn.
  rewrite trilaterate_refines, trilateration_spec_locate.
  pose proof (trilaterate_weight_pos d1 H1).
  pose proof (trilaterate_weight_pos d2 H2).
  pose proof (trilaterate_weight_pos d3 H3).
  set (tw := trilaterate_weight d1 + trilaterate_weight d2 + trilaterate_weight d3).
  set (S := weighted_sum3 s1 s2 s3 d1 d2 d3) in *.
  assert (Htw : 0 < / tw) by (apply Rinv_0_lt_compat; unfold tw; lra).
  assert (HR : 0 < earthRadius) by (unfold earthRadius; lra).
  pose proof (vnorm_nonneg S) as HS.
  unfold onto_sphere.
  rewrite locate_vscale, locate_vscale; [reflexivity | exact Htw |].
  rewrite vnorm_vscale by lra.
  apply Rdiv_lt_0_compat; [exact HR|]. apply Rmult_lt_0_compat; lra.
Qed.

Lemma weighted_sum3_swap12 s1 s2 s3 d1 d2 d3 :
  weighted_sum3 s1 s2 s3 d1 d2 d3 = weighted_sum3 s2 s1 s3 d2 d1 d3.
Proof.
  unfold weighted_sum3.
  destruct (geoToCartesian (Lat s1) (Lon s1)) as [[x1 y1] z1].
  destruct (geoToCartesian (Lat s2) (Lon s2)) as [[x2 y2] z2].
  destruct (geoToCartesian (Lat s3) (Lon s3)) as [[x3 y3] z3].
  unfold vadd, vscale. f_equal; [f_equal|]; ring.
Qed.

Lemma weighted_sum3_swap23 s1 s2 s3 d1 d2 d3 :
  weighted_sum3 s1 s2 s3 d1 d2 d3 = weighted_sum3 s1 s3 s2 d1 d3 d2.
Proof.
  unfold weighted_sum3.
  destruct (geoToCartesian (Lat s1) (Lon s1)) as [[x1 y1] z1].
  destruct (geoToCartesian (Lat s2) (Lon s2)) as [[x2 y2] z2].
  destruct (geoToCartesian (Lat s3) (Lon s3)) as [[x3 y3] z3].
  unfold vadd, vscale. f_equal; [f_equal|]; ring.
Qed.

(** X8. In exact arithmetic [trilaterate] gives the same Location
    when the three (server, distance) pairs are passed in another
    order: the weighted sums do not depend on it.  (In [float64] the
    sums are rounded, and the two results can differ in their last
    bits.) *)
Theorem trilaterate_order_irrelevant s1 s2 s3 d1 d2 d3 :
  trilaterate s1 s2 s3 d1 d2 d3 = trilaterate s2 s1 s3 d2 d1 d3 /\
  trilaterate s1 s2 s3 d1 d2 d3 = trilaterate s1 s3 s2 d1 d3 d2.
Proof.
  rewrite !trilaterate_refines, !trilateration_spec_locate. split.
  - rewrite (weighted_sum3_swap12 s1 s2 s3 d1 d2 d3).
    replace (trilaterate_weight d2 + trilaterate_weight d1 + trilaterate_weight d3)
      with (trilaterate_weight d1 + trilaterate_weight d2 + trilaterate_weight d3)
      by ring.
    reflexivity.
  - rewrite (weighted_sum3_swap23 s1 s2 s3 d1 d2 d3).
    replace (trilaterate_weight d1 + trilaterate_weight d3 + trilaterate_weight d2)
      with (trilaterate_weight d1 + trilaterate_weight d2 + trilaterate_weight d3)
      by ring.
    reflexivity.
Qed.

(** X9. Three servers at one place, away from the poles and from
    longitude -180: in exact arithmetic [trilaterate] returns that
    place, whatever the three distances (above -1).  (In [float64] the
    result can differ from it in the last bits.) *)
Theorem trilaterate_colocated s1 s2 s3 d1 d2 d3 lat lon :
  -90 < lat < 90 -> -180 < lon <= 180 ->
  -1 < d1 -> -1 < d2 -> -1 < d3 ->
  (Lat s1, Lon s1) = (lat, lon) ->
  (Lat s2, Lon s2) = (lat, lon) ->
  (Lat s3, Lon s3) = (lat, lon) ->
  trilaterate s1 s2 s3 d1 d2 d3 = mkLocation lat lon.
Proof.
  intros Hlat Hlon H1 H2 H3 E1 E2 E3.
  injection E1 as E1a E1b. injection E2 as E2a E2b. injection E3 as E3a E3b.
  pose proof (trilaterate_weight_pos d1 H1).
  pose proof (trilaterate_weight_pos d2 H2).
  pose proof (trilaterate_weight_pos d3 H3).
  set (tw := trilaterate_weight d1 + trilaterate_weight d2 + trilaterate_weight d3).
  assert (HS : weighted_sum3 s1 s2 s3 d1 d2 d3
               = vscale tw (geoToCartesian lat lon)).
  { unfold weighted_sum3. rewrite E1a, E1b, E2a, E2b, E3a, E3b.
    destruct (geoToCartesian lat lon) as [[x y] z].
    unfold vadd, vscale, tw. f_equal; [f_equal|]; ring. }
  assert (HR : 0 < earthRadius) by (unfold earthRadius; lra).
  rewrite trilaterate_locates_sum; try assumption.
  - rewrite HS, locate_vscale by (unfold tw; lra).
    pose proof (geo_roundtrip_interior lat lon Hlat Hlon) as Hrt.
    unfold locate. destruct (geoToCartesian lat lon) as [[x y] z].
    rewrite Hrt. reflexivity.
  - rewrite HS, vnorm_vscale by (unfold tw; lra).
    rewrite geo_on_sphere. unfold tw. nra.
Qed.

Lemma trilaterate_colocated_witness :
  trilaterate paris paris paris 0 1000 250 = mkLocation 48.8566 2.3522.
Proof.
  apply (trilaterate_colocated paris paris paris 0 1000 250 48.8566 2.3522);
    try lra; reflexivity.
Defined.

End TrilaterationExtras.

Section ReverseRoundTrip.
Local Open Scope R_scope.

Lemma hyp_factor x y :
  x <> 0 -> sqrt (x * x + y * y) = Rabs x * sqrt (1 + (y / x)²).
Proof.
  intros Hx.
  replace (x * x + y * y) with (x² * (1 + (y / x)²))
    by (unfold Rsqr; field; exact Hx).
  rewrite sqrt_mult_alt by apply Rle_0_sqr.
  rewrite sqrt_Rsqr_abs. reflexivity.
Qed.

Lemma sqrt_one_plus_sqr_pos t : 0 < sqrt (1 + t²).
Proof. apply sqrt_lt_R0. pose proof (Rle_0_sqr t). lra. Qed.

(** [Atan2 y x] is the angle of the point [(x, y)]: the point is its
    distance from the origin times the cosine and sine of that
    angle. *)
Lemma Atan2_angle x y :
  sqrt (x * x + y * y) * cos (Atan2 y x) = x /\
  sqrt (x * x + y * y) * sin (Atan2 y x) = y.
Proof.
  unfold Atan2.
  destruct (Req_dec_T y 0) as [->|Hy].
  - replace (x * x + 0 * 0) with (x²) by (unfold Rsqr; ring).
    rewrite sqrt_Rsqr_abs.
    destruct (Rle_dec 0 x) as [Hx|Hx].
    + rewrite cos_0, sin_0, Rabs_pos_eq by exact Hx. split; ring.
    + rewrite cos_PI, sin_PI, Rabs_left by lra. split; ring.
  - destruct (Req_dec_T x 0) as [->|Hx].
    + replace (0 * 0 + y * y) with (y²) by (unfold Rsqr; ring).
      rewrite sqrt_Rsqr_abs.
      destruct (Rlt_dec 0 y) as [Hp|Hp].
      * rewrite cos_PI2, sin_PI2, Rabs_pos_eq by lra. split; ring.
      * rewrite cos_neg, sin_neg, cos_PI2, sin_PI2, Rabs_left by lra.
        split; ring.
    + cbv zeta. rewrite (hyp_factor x y Hx).
      set (t := y / x). pose proof (sqrt_one_plus_sqr_pos t) as Hs.
      assert (Ht : x * t = y) by (unfold t; field; exact Hx).
      destruct (Rlt_dec x 0) as [Hneg|Hpos].
      * rewrite Rabs_left by exact Hneg.
        destruct (Rle_dec (atan t) 0).
        -- rewrite neg_cos, neg_sin, cos_atan, sin_atan.
           split; [field; lra | rewrite <- Ht; field; lra].
        -- replace (atan t - PI) with (- (PI - atan t)) by ring.
           rewrite cos_neg, sin_neg, sin_PI_x.
           replace (PI - atan t) with (- (atan t) + PI) by ring.
           rewrite neg_cos, cos_neg, cos_atan, sin_atan.
           split; [field; lra | rewrite <- Ht; field; lra].
      * rewrite Rabs_pos_eq by lra. rewrite cos_atan, sin_atan.
        split; [field; lra | rewrite <- Ht; field; lra].
Qed.

Lemma geoToCartesian_cartesianToGeo x y z :
  x * x + y * y + z * z = earthRadius * earthRadius ->
  geoToCartesian (cartesianToGeo x y z).1 (cartesianToGeo x y z).2 = (x, y, z).
Proof.
  intros Hs. pose proof PI_RGT_0 as HPI.
  unfold cartesianToGeo. cbv zeta. simpl fst. simpl snd.
  unfold geoToCartesian. cbv zeta.
  set (hyp := sqrt (x * x + y * y)).
  replace (Atan2 z hyp * 180 / PI * PI / 180) with (Atan2 z hyp) by (field; lra).
  replace (Atan2 y x * 180 / PI * PI / 180) with (Atan2 y x) by (field; lra).
  destruct (Atan2_angle x y) as [Hx Hy]. fold hyp in Hx, Hy.
  destruct (Atan2_angle hyp z) as [Hh Hz].
  assert (HR : sqrt (hyp * hyp + z * z) = earthRadius).
  { unfold hyp. rewrite sqrt_sqrt by nra.
    rewrite Hs. apply sqrt_square. unfold earthRadius. lra. }
  rewrite HR in Hh, Hz.
  rewrite Hh, Hx, Hy, Hz. reflexivity.
Qed.

End ReverseRoundTrip.

Section Projection.
Local Open Scope R_scope.

Lemma onto_sphere_vscale k v :
  0 < k -> vnorm v <> 0 -> onto_sphere (vscale k v) = onto_sphere v.
Proof.
  intros Hk Hn. unfold onto_sphere. rewrite vnorm_vscale by lra.
  destruct v as [[x y] z]. set (n := vnorm (x, y, z)) in *.
  unfold vscale. f_equal; [f_equal|]; field; lra.
Qed.







(** X7. On a point of the sphere of radius 6371.0, converting to
    geographic coordinates and back gives the point again. *)
Theorem cartesian_roundtrip_on_sphere x y z :
  x * x + y * y + z * z = earthRadius * earthRadius ->
  geoToCartesian (cartesianToGeo x y z).1 (cartesianToGeo x y z).2 = (x, y, z).
Proof. apply geoToCartesian_cartesianToGeo. Qed.

Lemma cartesian_roundtrip_on_sphere_witness :
  0 * 0 + 6371 * 6371 + 0 * 0 = earthRadius * earthRadius /\
  geoToCartesian (cartesianToGeo 0 6371 0).1 (cartesianToGeo 0 6371 0).2
  = (0, 6371, 0).
Proof.
  assert (H : 0 * 0 + 6371 * 6371 + 0 * 0 = earthRadius * earthRadius)
    by (unfold earthRadius; lra).
  split; [exact H|]. exact (cartesian_roundtrip_on_sphere 0 6371 0 H).
Defined.

(** X10. In exact arithmetic, for a latitude strictly between -90 and
    90 and a longitude above -180 and at most 180, converting to
    Cartesian coordinates and back gives the same latitude and
    longitude. *)
Theorem geo_roundtrip_exact lat lon :
  -90 < lat < 90 -> -180 < lon <= 180 ->
  cartesianToGeo (geoToCartesian lat lon).1.1 (geoToCartesian lat lon).1.2
                 (geoToCartesian lat lon).2
  = (lat, lon).
Proof.
  intros Hlat Hlon. pose proof (geo_roundtrip_interior lat lon Hlat Hlon) as H.
  destruct (geoToCartesian lat lon) as [[x y] z]. exact H.
Qed.

Lemma geo_roundtrip_exact_witness :
  cartesianToGeo (geoToCartesian 48.8566 2.3522).1.1
                 (geoToCartesian 48.8566 2.3522).1.2
                 (geoToCartesian 48.8566 2.3522).2
  = (48.8566, 2.3522).
Proof. apply geo_roundtrip_exact; lra. Defined.

End Projection.

Section MultilaterationExtras.
Local Open Scope R_scope.

Lemma Rsum_perm l l' : l ≡ₚ l' -> Rsum l = Rsum l'.
Proof. induction 1; simpl; lra. Qed.

Lemma weighted_terms (f : Result -> R) (l : list Result) :
  zip_with Rmult (List.map f l) (weights_of l)
  = List.map (fun r => f r * (1 / (IZR (Duration.Milliseconds (Delta r)) + 1))) l.
Proof. induction l as [|r l IH]; simpl; [reflexivity | rewrite IH; reflexivity]. Qed.

Lemma weighted_mean_perm (f : Result -> R) (l l' : list Result) :
  l ≡ₚ l' ->
  weighted_mean (weights_of l) (List.map f l)
  = weighted_mean (weights_of l') (List.map f l').
Proof.
  intros Hp. unfold weighted_mean. rewrite !weighted_terms.
  f_equal; apply Rsum_perm; unfold weights_of; apply Permutation_map, Hp.
Qed.

Lemma multilateralTriangulation_perm (results results' : list Result)
    (numServers : Z) :
  (3 <= length results)%nat -> (3 <= length results')%nat ->
  top numServers results ≡ₚ top numServers results' ->
  multilateralTriangulation results numServers
  = multilateralTriangulation results' numServers.
Proof.
  intros H3 H3' Hp.
  rewrite !multilateralTriangulation_spec by assumption.
  unfold multilateration_spec. cbv zeta.
  rewrite (weighted_mean_perm (fun r => Lat (Srv r)) _ _ Hp).
  rewrite (weighted_mean_perm (fun r => Lon (Srv r)) _ _ Hp).
  reflexivity.
Qed.

(** X11. In exact arithmetic [multilateralTriangulation] depends on
    the selected entries only as a collection: two lists of at least
    three results whose first [min(N, length)] entries are
    rearrangements of each other give the same Location.  (In
    [float64] the sums are accumulated from left to right and rounded:
    see [binary64_order_rounding].) *)
Theorem multilateration_order_irrelevant (results results' : list Result)
    (numServers : Z) :
  (3 <= length results)%nat -> (3 <= length results')%nat ->
  top numServers results ≡ₚ top numServers results' ->
  multilateralTriangulation results numServers
  = multilateralTriangulation results' numServers.
Proof. apply multilateralTriangulation_perm. Qed.

Lemma multilateration_order_irrelevant_witness :
  (3 <= length [tie_paris; tie_london; far_london])%nat /\
  (3 <= length [tie_london; tie_paris; far_london])%nat /\
  multilateralTriangulation [tie_paris; tie_london; far_london] 10
  = multilateralTriangulation [tie_london; tie_paris; far_london] 10.
Proof.
  assert (H : (3 <= 3)%nat) by lia.
  split; [exact H|]. split; [exact H|].
  apply (multilateration_order_irrelevant
           [tie_paris; tie_london; far_london]
           [tie_london; tie_paris; far_london] 10 H H).
  apply perm_swap.
Defined.

(** Sums over entries that all carry the same weight. *)
Lemma equal_weight_sums (f : Result -> R) (l : list Result) (ms : Z) :
  Forall (fun r => Duration.Milliseconds (Delta r) = ms) l ->
  Rsum (zip_with Rmult (List.map f l) (weights_of l))
  = 1 / (IZR ms + 1) * Rsum (List.map f l) /\
  Rsum (weights_of l) = 1 / (IZR ms + 1) * INR (length l).
Proof.
  induction 1 as [|r l Hr _ [IH1 IH2]].
  - simpl. split; ring.
  - cbn [List.map weights_of zip_with Rsum foldr length].
    fold (weights_of l). fold (Rsum (zip_with Rmult (List.map f l) (weights_of l))).
    fold (Rsum (weights_of l)). fold (Rsum (List.map f l)).
    rewrite IH1, IH2, Hr, S_INR. split; ring.
Qed.

(** X12. When the selected entries all have the same whole number of
    milliseconds of delta, [multilateralTriangulation] returns the plain
    arithmetic mean of their latitudes and of their longitudes. *)
Theorem multilateration_equal_deltas (results : list Result)
    (numServers ms : Z) :
  (3 <= length results)%nat -> (1 <= numServers)%Z -> (0 <= ms)%Z ->
  Forall (fun r => Duration.Milliseconds (Delta r) = ms)
         (top numServers results) ->
  let entries := top numServers results in
  multilateralTriangulation results numServers
  = Some (mkLocation
            (Rsum (List.map (fun r => Lat (Srv r)) entries) / INR (length entries))
            (Rsum (List.map (fun r => Lon (Srv r)) entries) / INR (length entries))).
Proof.
  intros H3 Hn Hms Hall entries.
  rewrite multilateralTriangulation_spec by exact H3.
  unfold multilateration_spec, weighted_mean. cbv zeta. fold entries.
  destruct (equal_weight_sums (fun r => Lat (Srv r)) entries ms Hall) as [E1 E3].
  destruct (equal_weight_sums (fun r => Lon (Srv r)) entries ms Hall) as [E2 _].
  rewrite E1, E2, E3.
  assert (Hne : entries <> []) by (apply top_nonempty; assumption).
  assert (Hlen : 0 < INR (length entries)).
  { apply lt_0_INR. destruct entries; [congruence | simpl; lia]. }
  assert (Hw : 0 < IZR ms + 1) by (apply IZR_le in Hms; lra).
  f_equal. f_equal; field; lra.
Qed.

Lemma multilateration_equal_deltas_witness :
  exists loc,
    multilateralTriangulation [tie_paris; tie_london; tie_paris] 3 = Some loc.
Proof.
  eexists.
  apply (multilateration_equal_deltas [tie_paris; tie_london; tie_paris] 3 10).
  - simpl; lia.
  - lia.
  - lia.
  - repeat constructor.
Defined.

End MultilaterationExtras.

(** ** The outcomes of [main] *)

Lemma measurements_nil targetRTT tasks :
  measurements targetRTT tasks = []
  <-> Forall (fun t => failed t = true) tasks.
Proof.
  induction tasks as [|[s [avg|msg]] tasks IH]; simpl.
  - split; [constructor | reflexivity].
  - split; [discriminate | intros H; inversion H; discriminate].
  - rewrite IH. split; [constructor; [reflexivity | assumption]
                       | intros H; inversion H; assumption].
Qed.

Lemma measurements_not_nil targetRTT tasks :
  measurements targetRTT tasks <> []
  <-> Exists (fun t => failed t = false) tasks.
Proof.
  induction tasks as [|[s [avg|msg]] tasks IH]; simpl.
  - split; [congruence | intros H; inversion H].
  - split; [intros _; left; reflexivity | discriminate].
  - rewrite IH. split; [intros H; right; exact H|].
    intros H. inversion H as [? ? E|]; [discriminate E | assumption].
Qed.

Lemma joined_results_nil targetRTT tasks sh :
  joined targetRTT tasks sh ->
  (length (results sh) = 0%nat <-> measurements targetRTT tasks = []).
Proof.
  intros Hsh. apply fanout_inv_reachable in Hsh as (Hres & _).
  simpl in Hres. rewrite app_nil_r in Hres.
  rewrite (Permutation_length Hres).
  destruct (measurements targetRTT tasks); simpl; split; congruence || lia.
Qed.

Lemma joined_exists targetRTT tasks : exists sh, joined targetRTT tasks sh.
Proof. eexists. apply fanout_terminates. Qed.

(** X13. How [main] ends.  If the probe of the target fails it stops
    there, with that error; otherwise it never reports the target as
    unreachable, it reports that no server answered exactly when every
    probe of the catalog fails (the empty catalog included), and it
    reaches the analysis exactly when some probe succeeds. *)
Theorem main_outcomes (tasks : list Task) :
  (forall msg o, main (ProbeErr msg) tasks o <-> o = TargetUnreachable msg) /\
  (forall targetRTT msg, ~ main (ProbeOk targetRTT) tasks (TargetUnreachable msg)) /\
  (forall targetRTT,
     main (ProbeOk targetRTT) tasks NoServerAnswered
     <-> Forall (fun t => failed t = true) tasks) /\
  (forall targetRTT,
     (exists ranked, main (ProbeOk targetRTT) tasks (Analysed ranked))
     <-> Exists (fun t => failed t = false) tasks).
Proof.
  split; [|split; [|split]].
  - intros msg o. split.
    + intros H. inversion H; subst; try discriminate. congruence.
    + intros ->. constructor. reflexivity.
  - intros targetRTT msg H. inversion H. discriminate.
  - intros targetRTT. rewrite <- (measurements_nil targetRTT). split.
    + intros H. inversion H as [| t sh E Hsh Hz |]; subst. injection E as <-.
      apply (joined_results_nil _ _ _ Hsh), Hz.
    + intros Hall. destruct (joined_exists targetRTT tasks) as [sh Hsh].
      eapply main_no_answer; [reflexivity | exact Hsh |].
      apply (joined_results_nil _ _ _ Hsh), Hall.
  - intros targetRTT. rewrite <- (measurements_not_nil targetRTT). split.
    + intros [ranked H]. inversion H as [| |t sh r E Hsh Hnz Hr]; subst.
      injection E as <-. intros Hm. apply Hnz.
      apply (joined_results_nil _ _ _ Hsh), Hm.
    + intros Hne. destruct (joined_exists targetRTT tasks) as [sh Hsh].
      destruct (rank_exists (results sh)) as [ranked Hr].
      exists ranked. eapply main_analysed; [reflexivity | exact Hsh | | exact Hr].
      intros Hz. apply Hne. apply (joined_results_nil _ _ _ Hsh), Hz.
Qed.

(** ** Completion order *)

Lemma run_in_order targetRTT (order pending : list Task) sh :
  pending ≡ₚ order ->
  rtc (step targetRTT) (mkState pending sh)
      (mkState [] (foldl (worker targetRTT) sh order)).
Proof.
  revert pending sh. induction order as [|t order IH]; intros pending sh Hp.
  - apply Permutation_nil_r in Hp. subst. apply rtc_refl.
  - assert (Hin : t ∈ pending) by (rewrite Hp; left).
    apply list_elem_of_split in Hin as (l1 & l2 & ->).
    rewrite <- Permutation_middle in Hp. apply Permutation_cons_inv in Hp.
    eapply rtc_l; [apply step_finish|]. simpl. apply IH, Hp.
Qed.

Lemma foldl_worker_results targetRTT (order : list Task) sh :
  results (foldl (worker targetRTT) sh order)
  = results sh ++ measurements targetRTT order.
Proof.
  revert sh. induction order as [|t order IH]; intros sh; simpl.
  - symmetry. apply app_nil_r.
  - rewrite IH, worker_results, <- app_assoc. f_equal.
    symmetry. apply (measurements_app targetRTT [t] order).
Qed.

(** X14. The result slice is in completion order, and every order is
    possible: for each arrangement of the goroutines there is a run
    that joins with the successful measurements in exactly that
    order. *)
Theorem any_completion_order (targetRTT : Z) (tasks order : list Task) :
  order ≡ₚ tasks ->
  exists sh, joined targetRTT tasks sh /\
             results sh = measurements targetRTT order.
Proof.
  intros Hp. exists (foldl (worker targetRTT) (mkShared [] 0 0) order). split.
  - apply run_in_order. symmetry. exact Hp.
  - rewrite foldl_worker_results. reflexivity.
Qed.

Lemma any_completion_order_witness :
  exists sh,
    joined sample_target sample_tasks sh /\
    results sh = [measure sample_target berlin 12500000;
                  measure sample_target paris 30000000].
Proof.
  apply (any_completion_order sample_target sample_tasks
           [(berlin, ProbeOk 12500000); (london, ProbeErr "aucune réponse");
            (paris, ProbeOk 30000000)]).
  unfold sample_tasks.
  etransitivity; [apply perm_swap|].
  etransitivity; [apply perm_skip, perm_swap|]. apply perm_swap.
Defined.

(** ** The delta at the ends of the [int64] range *)

Lemma wrap_in_range z : Duration.in_range (Duration.wrap z).
Proof.
  unfold Duration.in_range, Duration.wrap.
  pose proof (Z.mod_pos_bound (z + 2 ^ 63) (2 ^ 64)). lia.
Qed.

(** X15. For any two [int64] round-trip times the stored delta is an
    [int64]; it is the absolute value of the wrapped difference, hence
    nonnegative, except when that difference is the least [int64],
    whose negation wraps to itself: then the delta is that negative
    value. *)
Theorem measure_delta_int64 (targetRTT : Z) (server : Server) (avg : Z) :
  Duration.in_range targetRTT -> Duration.in_range avg ->
  Duration.in_range (Delta (measure targetRTT server avg)) /\
  (Duration.sub avg targetRTT <> - 2 ^ 63 ->
     Delta (measure targetRTT server avg) = Z.abs (Duration.sub avg targetRTT)) /\
  (Duration.sub avg targetRTT = - 2 ^ 63 ->
     Delta (measure targetRTT server avg) = - 2 ^ 63).
Proof.
  intros Ht Ha. unfold measure. cbn [Delta].
  pose proof (wrap_in_range (avg - targetRTT)) as Hd.
  unfold Duration.sub. set (d := Duration.wrap (avg - targetRTT)) in *.
  unfold Duration.in_range in Hd.
  split; [|split].
  - destruct (Z.ltb_spec d 0); [apply wrap_in_range | exact Hd].
  - intros Hne. destruct (Z.ltb_spec d 0).
    + unfold Duration.neg. rewrite wrap_id by (unfold Duration.in_range; lia). lia.
    + lia.
  - intros ->. reflexivity.
Qed.

Lemma measure_delta_int64_witness :
  Duration.in_range 0 /\ Duration.in_range (- 2 ^ 63) /\
  Delta (measure 0 paris (- 2 ^ 63)) = - 2 ^ 63.
Proof.
  assert (H0 : Duration.in_range 0) by (unfold Duration.in_range; lia).
  assert (H1 : Duration.in_range (- 2 ^ 63)) by (unfold Duration.in_range; lia).
  split; [exact H0|]. split; [exact H1|].
  apply (proj2 (proj2 (measure_delta_int64 0 paris (- 2 ^ 63) H0 H1))).
  reflexivity.
Defined.

(** ** The table of [displayResults] *)

Lemma proximity_pluses_antitone d d' :
  d <= d' -> (pluses (proximity d') <= pluses (proximity d))%nat.
Proof.
  intros H. unfold proximity, Duration.Millisecond.
  destruct (Z.gtb_spec d (50 * 1000000)), (Z.gtb_spec d (100 * 1000000)),
           (Z.gtb_spec d (200 * 1000000)),
           (Z.gtb_spec d' (50 * 1000000)), (Z.gtb_spec d' (100 * 1000000)),
           (Z.gtb_spec d' (200 * 1000000));
    try lia; simpl; lia.
Qed.

(** X16. On the ranked list, [displayResults] prints
    [min(15, number of results)] rows; row [i] shows the [i]-th ranked
    result with rank [i+1] and the indicator of its delta, and the
    number of [+] signs never increases down the table. *)
Theorem displayResults_table (results ranked : list Result) :
  rank results ranked ->
  length (displayResults ranked) = Nat.min 15 (length results) /\
  (forall i a, displayResults ranked !! i = Some a ->
     (i < 15)%nat /\ ranked !! i = Some (rowResult a) /\
     rowRank a = Z.of_nat i + 1 /\
     rowProximity a = proximity (Delta (rowResult a))) /\
  (forall i j a b, (i < j)%nat ->
     displayResults ranked !! i = Some a ->
     displayResults ranked !! j = Some b ->
     (pluses (rowProximity b) <= pluses (rowProximity a))%nat).
Proof.
  intros [Hp Hs].
  assert (Hrow : forall i a, displayResults ranked !! i = Some a ->
     (i < 15)%nat /\ ranked !! i = Some (rowResult a) /\
     rowRank a = Z.of_nat i + 1 /\
     rowProximity a = proximity (Delta (rowResult a))).
  { intros i a Ha. unfold displayResults in Ha.
    rewrite list_lookup_imap in Ha.
    destruct (take 15 ranked !! i) as [r|] eqn:Hr; [|discriminate].
    injection Ha as <-. simpl.
    apply lookup_take_Some in Hr as [Hr Hi]. auto. }
  split; [|split; [exact Hrow|]].
  - unfold displayResults. rewrite length_imap, length_take.
    rewrite (Permutation_length Hp). reflexivity.
  - intros i j a b Hij Ha Hb.
    destruct (Hrow i a Ha) as (_ & Hia & _ & ->).
    destruct (Hrow j b Hb) as (_ & Hjb & _ & ->).
    apply proximity_pluses_antitone.
    pose proof (sorted_by_lookup less_Delta ranked i j _ _ Hs Hij Hia Hjb) as H.
    unfold less_Delta in H. lia.
Qed.

Lemma displayResults_table_witness :
  rank [tie_paris; near_berlin] [near_berlin; tie_paris] /\
  length (displayResults [near_berlin; tie_paris]) = 2%nat.
Proof.
  split; [exact sample_rank|].
  exact (proj1 (displayResults_table _ _ sample_rank)).
Defined.

(** ** The coherence analysis *)

Lemma sumDelta_nonneg l :
  Forall (fun r => 0 <= Delta r) l -> 0 <= sumDelta l.
Proof. induction 1; simpl; lia. Qed.

Lemma foldl_delta_exact l acc :
  Forall (fun r => 0 <= Delta r) l ->
  0 <= acc -> acc + sumDelta l < 2 ^ 63 ->
  foldl (fun avgDelta r => Duration.add avgDelta (Delta r)) acc l
  = acc + sumDelta l.
Proof.
  intros H. revert acc.
  induction H as [|r l Hr Hl IH]; intros acc Hacc Hlt; simpl.
  - lia.
  - pose proof (sumDelta_nonneg l Hl). simpl in Hlt.
    unfold Duration.add at 2.
    rewrite wrap_id by (unfold Duration.in_range; lia).
    rewrite IH by lia. lia.
Qed.

Lemma sumDelta_le_bound l dmax :
  Forall (fun r => Delta r <= dmax) l ->
  sumDelta l <= Z.of_nat (length l) * dmax.
Proof. induction 1; simpl length; simpl sumDelta; lia. Qed.

(** X17. The "average delta" of the coherence analysis is the sum of
    the first (at most five) deltas divided by 5, rounded down, also
    when fewer than five results exist: with [n] results summed and
    every one of them at most [dmax], five times the average is at most
    [n * dmax].  The deltas are nonnegative and their sum fits a
    [Duration]. *)
Theorem coherence_average (results : list Result) (dmax : Z) :
  (3 <= length results)%nat ->
  Forall (fun r => 0 <= Delta r) (take 5 results) ->
  Forall (fun r => Delta r <= dmax) (take 5 results) ->
  sumDelta (take 5 results) < 2 ^ 63 ->
  exists report,
    coherence_analysis results = Some report /\
    crServers report = Z.of_nat (length results) /\
    5 * crAvgDelta report <= sumDelta (take 5 results)
      < 5 * crAvgDelta report + 5 /\
    5 * crAvgDelta report <= Z.of_nat (Nat.min 5 (length results)) * dmax.
Proof.
  intros Hlen Hnn Hmax Hsum. unfold coherence_analysis.
  destruct (Z.ltb_spec (Z.of_nat (length results)) 3); [lia|].
  eexists. split; [reflexivity|]. cbn [crAvgDelta crServers].
  split; [reflexivity|].
  unfold top5_avgDelta. cbv zeta.
  rewrite foldl_delta_exact by (assumption || lia). rewrite Z.add_0_l.
  pose proof (sumDelta_nonneg _ Hnn) as H0.
  rewrite Z.quot_div_nonneg by lia.
  pose proof (Z.mul_div_le (sumDelta (take 5 results)) 5 ltac:(lia)).
  pose proof (Z.mul_succ_div_gt (sumDelta (take 5 results)) 5 ltac:(lia)).
  pose proof (sumDelta_le_bound _ _ Hmax) as Hb.
  rewrite length_take in Hb.
  set (S := sumDelta (take 5 results)) in *.
  set (B := Z.of_nat (5 `min` length results) * dmax) in *.
  lia.
Qed.

Lemma coherence_average_witness :
  (3 <= length [near_berlin; tie_paris; far_london])%nat /\
  exists report,
    coherence_analysis [near_berlin; tie_paris; far_london] = Some report /\
    5 * crAvgDelta report <= 3 * 40000000.
Proof.
  assert (H3 : (3 <= length [near_berlin; tie_paris; far_london])%nat)
    by (simpl; lia).
  split; [exact H3|].
  destruct (coherence_average [near_berlin; tie_paris; far_london] 40000000 H3)
    as (report & Hr & _ & _ & Hb).
  - repeat constructor; simpl; lia.
  - repeat constructor; simpl; lia.
  - simpl; lia.
  - exists report. split; [exact Hr | exact Hb].
Defined.

(** X18. The two ladders of the coherence analysis agree: a precision
    of 100 or 200 km only goes with coherence EXCELLENTE, coherence
    MOYENNE or FAIBLE only with 500 km, EXCELLENTE with 300 km happens
    exactly at an average delta of 50 ms, and a larger average delta
    never gives a smaller precision radius. *)
Theorem coherence_precision_consistent (avgDelta avgDelta' : Z) :
  ((precision avgDelta = 100 \/ precision avgDelta = 200)%R ->
     coherence avgDelta = "EXCELLENTE"%string) /\
  (coherence avgDelta = "MOYENNE"%string \/ coherence avgDelta = "FAIBLE"%string ->
     (precision avgDelta = 500)%R) /\
  (coherence avgDelta = "EXCELLENTE"%string /\ (precision avgDelta = 300)%R
     <-> avgDelta = 50 * Duration.Millisecond) /\
  (avgDelta <= avgDelta' -> (precision avgDelta <= precision avgDelta')%R).
Proof.
  unfold coherence, precision, Duration.Millisecond.
  destruct (Z.gtb_spec avgDelta (50 * 1000000)),
           (Z.gtb_spec avgDelta (100 * 1000000)),
           (Z.gtb_spec avgDelta (200 * 1000000)),
           (Z.ltb_spec avgDelta (20 * 1000000)),
           (Z.ltb_spec avgDelta (50 * 1000000)),
           (Z.ltb_spec avgDelta (100 * 1000000)); try lia;
    (split; [|split; [|split]]);
    try (intros [E|E]; (discriminate E || reflexivity || (exfalso; lra)));
    try (split; [intros [E1 E2]; first [discriminate E1 | exfalso; lra | lia]
                | intros E; first [lia | split; [reflexivity | lra]]]);
    try (intros Hle;
         destruct (Z.ltb_spec avgDelta' (20 * 1000000)),
                  (Z.ltb_spec avgDelta' (50 * 1000000)),
                  (Z.ltb_spec avgDelta' (100 * 1000000)); try lia; lra).
Qed.

(** ** [displayTriangulation] on enough servers *)



(** ** The country table adds up *)

Lemma sum_counts_perm l l' : l ≡ₚ l' -> sum_counts l = sum_counts l'.
Proof.
  induction 1; simpl; lia.
Qed.

Lemma sum_counts_bump (m : gmap string Z) r :
  sum_counts (map_to_list (bump m r)) = sum_counts (map_to_list m) + 1.
Proof.
  unfold bump. set (c := Country (Srv r)).
  rewrite <- insert_delete_eq.
  rewrite (sum_counts_perm _ _ (map_to_list_insert _ _ _ (lookup_delete_eq m c))).
  destruct (m !! c) as [v|] eqn:E.
  - rewrite <- (sum_counts_perm _ _ (map_to_list_delete _ _ _ E)).
    simpl. lia.
  - rewrite delete_id by exact E. simpl. lia.
Qed.

Lemma sum_counts_foldl results (m : gmap string Z) :
  sum_counts (map_to_list (foldl bump m results))
  = sum_counts (map_to_list m) + Z.of_nat (length results).
Proof.
  revert m. induction results as [|r results IH]; intros m; simpl foldl.
  - simpl. lia.
  - rewrite IH, sum_counts_bump. simpl length. lia.
Qed.

Lemma sum_counts_take (rows : list countryCount) n :
  Forall (fun a => 0 <= a.2) rows ->
  sum_counts (take n rows) <= sum_counts rows.
Proof.
  intros H. revert n. induction H as [|a rows Ha _ IH]; intros [|n]; simpl; try lia.
  - pose proof (IH 0%nat). rewrite take_0 in H. simpl in H. lia.
  - specialize (IH n). lia.
Qed.

(** X20. In the table of [displayStatistics] every row has a positive
    count, the counts of all countries add up to the number of results,
    the (at most ten) rows shown add up to at most that number, and to
    exactly that number when there are at most ten countries. *)
Theorem country_table_adds_up (results : list Result) (st : Stats) :
  displayStatistics results (Some st) ->
  exists sorted,
    shown st = take 10 sorted /\
    sorted ≡ₚ map_to_list (countryStats results) /\
    sum_counts sorted = Z.of_nat (length results) /\
    Forall (fun a => 0 < a.2) (shown st) /\
    sum_counts (shown st) <= total st /\
    ((length sorted <= 10)%nat -> sum_counts (shown st) = total st).
Proof.
  intros H. inversion H as [|countries sorted Hnz Hperm [Hp Hs]]; subst.
  exists sorted. cbn [shown total].
  assert (Hps : sorted ≡ₚ map_to_list (countryStats results))
    by (rewrite <- Hp; exact Hperm).
  assert (Hsum : sum_counts sorted = Z.of_nat (length results)).
  { rewrite (sum_counts_perm _ _ Hps). unfold countryStats.
    rewrite sum_counts_foldl, map_to_list_empty. simpl. lia. }
  assert (Hpos : Forall (fun a : countryCount => 0 < a.2) sorted).
  { apply Forall_forall. intros [c n] Hin. rewrite Hps in Hin.
    apply elem_of_map_to_list, countryStats_lookup in Hin. simpl. lia. }
  split; [reflexivity|]. split; [exact Hps|]. split; [exact Hsum|].
  split; [apply Forall_take, Hpos|]. split.
  - rewrite <- Hsum. apply sum_counts_take.
    eapply Forall_impl; [exact Hpos|]. simpl. intros; lia.
  - intros Hle. rewrite take_ge by exact Hle. exact Hsum.
Qed.

Lemma country_table_adds_up_witness :
  exists st sorted,
    displayStatistics [tie_paris; near_berlin] (Some st) /\
    sum_counts sorted = 2.
Proof.
  destruct (displayStatistics_runs [tie_paris; near_berlin]) as [st Hst];
    [discriminate|].
  destruct (country_table_adds_up _ st Hst) as (sorted & _ & _ & Hsum & _).
  exists st, sorted. split; [exact Hst | exact Hsum].
Defined.

(** ** What the choice of ranking can change *)

Lemma sorted_keys (ys : list Result) :
  sorted_by less_Delta ys -> StronglySorted Z.le (List.map Delta ys).
Proof.
  unfold sorted_by. induction 1 as [|a l Hs IH Ha]; simpl; constructor; [exact IH|].
  apply Forall_forall. intros k Hk.
  apply list_elem_of_In, in_map_iff in Hk as (b & <- & Hb).
  rewrite Forall_forall in Ha. specialize (Ha b (proj2 (list_elem_of_In _ _) Hb)).
  unfold less_Delta in Ha. lia.
Qed.

Lemma same_keys_same_list (l l' : list Result) :
  List.map Delta l = List.map Delta l' -> l ≡ₚ l' ->
  NoDup (List.map Delta l) -> l = l'.
Proof.
  revert l'. induction l as [|a l IH]; intros [|b l'] Hk Hp Hnd;
    try discriminate; [reflexivity|].
  simpl in Hk. injection Hk as Hab Hk. inversion Hnd as [|? ? Hnotin Hnd']; subst.
  assert (Hb : b ∈ a :: l) by (rewrite Hp; left).
  apply elem_of_cons in Hb as [->|Hb].
  - f_equal. apply IH; [exact Hk | | exact Hnd'].
    apply Permutation_cons_inv in Hp. exact Hp.
  - exfalso. apply Hnotin. rewrite Hab.
    apply list_elem_of_In, in_map, list_elem_of_In, Hb.
Qed.

Lemma rank_unique (results ranked ranked' : list Result) :
  NoDup (List.map Delta results) ->
  rank results ranked -> rank results ranked' -> ranked = ranked'.
Proof.
  intros Hnd [Hp Hs] [Hp' Hs'].
  assert (Hpp : ranked ≡ₚ ranked') by (rewrite <- Hp; exact Hp').
  apply same_keys_same_list; [|exact Hpp|].
  - apply (StronglySorted_unique Z.le); [apply sorted_keys, Hs
      | apply sorted_keys, Hs' | apply Permutation_map, Hpp].
  - assert (Hm : List.map Delta results ≡ₚ List.map Delta ranked)
      by (apply Permutation_map, Hp).
    rewrite <- Hm. exact Hnd.
Qed.

(** X21. Two runs over the same probe outcomes may append the results
    in different orders and rank ties differently.  If no two
    measurements have the same delta, both runs end with the same
    ranked list, so everything computed from it is the same. *)
Theorem ranking_independent_of_schedule (targetRTT : Z) (tasks : list Task)
    (sh sh' : Shared) (ranked ranked' : list Result) :
  joined targetRTT tasks sh -> rank (results sh) ranked ->
  joined targetRTT tasks sh' -> rank (results sh') ranked' ->
  NoDup (List.map Delta (measurements targetRTT tasks)) ->
  ranked = ranked' /\
  displayResults ranked = displayResults ranked' /\
  displayTriangulation ranked = displayTriangulation ranked' /\
  coherence_analysis ranked = coherence_analysis ranked'.
Proof.
  intros Hj Hr Hj' Hr' Hnd.
  assert (Hm : results sh ≡ₚ measurements targetRTT tasks).
  { apply fanout_inv_reachable in Hj as (H & _). simpl in H.
    rewrite app_nil_r in H. exact H. }
  assert (Hm' : results sh' ≡ₚ measurements targetRTT tasks).
  { apply fanout_inv_reachable in Hj' as (H & _). simpl in H.
    rewrite app_nil_r in H. exact H. }
  assert (Hrk : rank (measurements targetRTT tasks) ranked).
  { destruct Hr as [Hp Hs]. split; [rewrite <- Hm; exact Hp | exact Hs]. }
  assert (Hrk' : rank (measurements targetRTT tasks) ranked').
  { destruct Hr' as [Hp Hs]. split; [rewrite <- Hm'; exact Hp | exact Hs]. }
  rewrite (rank_unique _ _ _ Hnd Hrk Hrk'). repeat split.
Qed.

Lemma sample_joined :
  joined sample_target sample_tasks
    (mkShared [measure sample_target paris 30000000;
               measure sample_target berlin 12500000] 3 3).
Proof. exact (fanout_terminates sample_target sample_tasks (mkShared [] 0 0)). Qed.

Lemma sample_joined_reversed :
  joined sample_target sample_tasks
    (mkShared [measure sample_target berlin 12500000;
               measure sample_target paris 30000000] 3 3).
Proof.
  apply (run_in_order sample_target
           [(berlin, ProbeOk 12500000); (london, ProbeErr "aucune réponse");
            (paris, ProbeOk 30000000)] sample_tasks (mkShared [] 0 0)).
  unfold sample_tasks. symmetry.
  etransitivity; [apply perm_swap|].
  etransitivity; [apply perm_skip, perm_swap|]. apply perm_swap.
Qed.

Lemma sample_measure_rank :
  rank [measure sample_target paris 30000000;
        measure sample_target berlin 12500000]
       [measure sample_target berlin 12500000;
        measure sample_target paris 30000000].
Proof. split; [apply perm_swap | repeat constructor]. Qed.

Lemma ranking_independent_of_schedule_witness :
  NoDup (List.map Delta (measurements sample_target sample_tasks)) /\
  forall ranked',
    rank [measure sample_target berlin 12500000;
          measure sample_target paris 30000000] ranked' ->
    [measure sample_target berlin 12500000;
     measure sample_target paris 30000000] = ranked'.
Proof.
  assert (Hnd : NoDup (List.map Delta (measurements sample_target sample_tasks))).
  { apply NoDup_cons. split; [|apply NoDup_singleton].
    intros H. apply list_elem_of_singleton in H. discriminate H. }
  split; [exact Hnd|]. intros ranked' Hr'.
  exact (proj1 (ranking_independent_of_schedule sample_target sample_tasks
                  _ _ _ ranked' sample_joined sample_measure_rank
                  sample_joined_reversed Hr' Hnd)).
Defined.
